(** * DR sheet generator (app.py): a shallow embedding and its properties

    The script reads a product catalog (H) and an order export (S),
    matches order lines to catalog rows by cleaned product name, copies
    catalog fields into the order sheet and into a derived DR sheet, and
    normalises a few columns.  This file embeds the pure part of the
    script: [clean_text], [match_items], [format_postal], the column
    rules and the assembly of the DR sheet, together with the parts of
    [re], [difflib] and [str] they call.  Reading and writing the
    workbooks and the Streamlit page are left out.

    Conventions.
    - A Python [str] is a list of Unicode code points ([ustr]).
    - A cell of a data frame is a [pyval]; a missing cell is the float NaN.
    - A data frame with a default [RangeIndex] is the list of its rows;
      [df.at[i, col]] reads or writes row [i].
    - The order sheet has the columns the script reads, so that no
      column lookup fails.
    - The frames behave as under pandas 2: writing a cell with [df.at]
      stores the value whatever the type of the column, and
      [astype(str)] turns every cell into a text, a missing one into
      "nan".  (pandas 3 refuses some of these writes and keeps a missing
      cell missing, so that a run can stop there; what is stated below
      of the sheets of a run is stated of a run that ends.)
    - Integers are those of CPython 3.11: [str] refuses an integer of
      more than 4300 digits.
    - A [dict] is an association list in insertion order.
    - [SequenceMatcher.ratio] is the exact rational [2*M/T].  Python
      rounds it to a double; two such rationals whose denominators are
      below [2^26] round to different doubles in the same order, and a
      ratio exceeds the double nearest to 0.3 exactly when the rational
      exceeds [3/10], so comparisons of scores are unchanged for keys of
      any realistic length. *)

From Stdlib Require Import ZArith NArith QArith Lia Bool Ascii String.
From Stdlib Require Import DecimalString SpecFloat Lqa.
From stdpp Require Import base list gmap sorting.

Local Open Scope N_scope.

(** ** Unicode strings *)

Abbreviation ustr := (list N) (only parsing).

(** Decoding of a UTF-8 byte sequence, so that the literals of the script
    can be written as they are in the source. *)
Fixpoint utf8_decode (bs : list N) : ustr :=
  match bs with
  | [] => []
  | b0 :: r0 =>
      if b0 <? 0x80 then b0 :: utf8_decode r0
      else
        match r0 with
        | [] => []
        | b1 :: r1 =>
            if b0 <? 0xE0 then
              ((b0 - 0xC0) * 64 + (b1 - 0x80)) :: utf8_decode r1
            else
              match r1 with
              | [] => []
              | b2 :: r2 =>
                  if b0 <? 0xF0 then
                    ((b0 - 0xE0) * 4096 + (b1 - 0x80) * 64 + (b2 - 0x80))
                      :: utf8_decode r2
                  else
                    match r2 with
                    | [] => []
                    | b3 :: r3 =>
                        ((b0 - 0xF0) * 262144 + (b1 - 0x80) * 4096
                         + (b2 - 0x80) * 64 + (b3 - 0x80))
                          :: utf8_decode r3
                    end
              end
        end
  end.

Definition U (s : string) : ustr :=
  utf8_decode (map N_of_ascii (list_ascii_of_string s)).

Definition ustr_eqb (a b : ustr) : bool := bool_decide (a = b).

(** [in_ranges rs c]: the code point lies in one of the closed intervals. *)
Definition in_ranges (rs : list (N * N)) (c : N) : bool :=
  existsb (fun r => (fst r <=? c) && (c <=? snd r)) rs.

(** [str.isspace] for one character, which is also what [\s] matches in a
    [str] pattern and what [str.strip()] removes. *)
Definition whitespace_ranges : list (N * N) :=
  [(0x9, 0xd); (0x1c, 0x20); (0x85, 0x85); (0xa0, 0xa0); (0x1680, 0x1680);
   (0x2000, 0x200a); (0x2028, 0x2029); (0x202f, 0x202f); (0x205f, 0x205f);
   (0x3000, 0x3000)].

Definition is_space (c : N) : bool := in_ranges whitespace_ranges c.

(** Decimal digits (general category Nd, Unicode 14): what [\d] matches
    in a [str] pattern. *)
Definition decimal_ranges : list (N * N) :=
  [(0x30, 0x39); (0x660, 0x669); (0x6f0, 0x6f9); (0x7c0, 0x7c9);
   (0x966, 0x96f); (0x9e6, 0x9ef); (0xa66, 0xa6f); (0xae6, 0xaef);
   (0xb66, 0xb6f); (0xbe6, 0xbef); (0xc66, 0xc6f); (0xce6, 0xcef);
   (0xd66, 0xd6f); (0xde6, 0xdef); (0xe50, 0xe59); (0xed0, 0xed9);
   (0xf20, 0xf29); (0x1040, 0x1049); (0x1090, 0x1099); (0x17e0, 0x17e9);
   (0x1810, 0x1819); (0x1946, 0x194f); (0x19d0, 0x19d9); (0x1a80, 0x1a89);
   (0x1a90, 0x1a99); (0x1b50, 0x1b59); (0x1bb0, 0x1bb9); (0x1c40, 0x1c49);
   (0x1c50, 0x1c59); (0xa620, 0xa629); (0xa8d0, 0xa8d9); (0xa900, 0xa909);
   (0xa9d0, 0xa9d9); (0xa9f0, 0xa9f9); (0xaa50, 0xaa59); (0xabf0, 0xabf9);
   (0xff10, 0xff19); (0x104a0, 0x104a9); (0x10d30, 0x10d39);
   (0x11066, 0x1106f); (0x110f0, 0x110f9); (0x11136, 0x1113f);
   (0x111d0, 0x111d9); (0x112f0, 0x112f9); (0x11450, 0x11459);
   (0x114d0, 0x114d9); (0x11650, 0x11659); (0x116c0, 0x116c9);
   (0x11730, 0x11739); (0x118e0, 0x118e9); (0x11950, 0x11959);
   (0x11c50, 0x11c59); (0x11d50, 0x11d59); (0x11da0, 0x11da9);
   (0x16a60, 0x16a69); (0x16ac0, 0x16ac9); (0x16b50, 0x16b59);
   (0x1d7ce, 0x1d7ff); (0x1e140, 0x1e149); (0x1e2f0, 0x1e2f9);
   (0x1e950, 0x1e959); (0x1fbf0, 0x1fbf9)].

(** Characters of numeric type Digit that are not decimal (superscripts,
    circled digits and the like): [str.isdigit] accepts them too. *)
Definition other_digit_ranges : list (N * N) :=
  [(0xb2, 0xb3); (0xb9, 0xb9); (0x1369, 0x1371); (0x19da, 0x19da);
   (0x2070, 0x2070); (0x2074, 0x2079); (0x2080, 0x2089); (0x2460, 0x2468);
   (0x2474, 0x247c); (0x2488, 0x2490); (0x24ea, 0x24ea); (0x24f5, 0x24fd);
   (0x24ff, 0x24ff); (0x2776, 0x277e); (0x2780, 0x2788); (0x278a, 0x2792);
   (0x10a40, 0x10a43); (0x10e60, 0x10e68); (0x11052, 0x1105a);
   (0x1f100, 0x1f10a)].

Definition is_decimal (c : N) : bool := in_ranges decimal_ranges c.

Definition is_digit (c : N) : bool :=
  is_decimal c || in_ranges other_digit_ranges c.

(** [s.isdigit()]: every character is a digit and there is at least one. *)
Definition isdigit (s : ustr) : bool :=
  negb (bool_decide (s = [])) && forallb is_digit s.

(** [s.strip()] *)
Fixpoint lstrip (s : ustr) : ustr :=
  match s with
  | c :: s' => if is_space c then lstrip s' else s
  | [] => []
  end.

Definition rstrip (s : ustr) : ustr := rev (lstrip (rev s)).

Definition strip (s : ustr) : ustr := rstrip (lstrip s).

(** [s.startswith(p)] *)
Fixpoint startswith (p s : ustr) : bool :=
  match p, s with
  | [], _ => true
  | a :: p', b :: s' => (a =? b) && startswith p' s'
  | _ :: _, [] => false
  end.

(** ** Values of cells *)

(** What a cell read from a sheet can hold: a truth value, a number, a
    text or nothing.  [bool] is a subclass of [int]: where the script
    tests [isinstance(x, int)] a truth value passes, and [int(True)] is
    1. *)
Inductive pyval :=
| PNone
| PBool (b : bool)
| PInt (z : Z)
| PFloat (f : spec_float)
| PStr (s : ustr).

Definition NaN : pyval := PFloat S754_nan.

(** [pd.isna] on a scalar *)
Definition isna (v : pyval) : bool :=
  match v with
  | PNone => true
  | PFloat S754_nan => true
  | _ => false
  end.

(** [Series.fillna("")] on one cell *)
Definition fillna_empty (v : pyval) : pyval :=
  if isna v then PStr [] else v.

(** ** Regular expressions

    The patterns of the script are sequences of single-character classes,
    each taken once or under a lazy or a greedy star.  The matcher
    backtracks in the order of [re]: a lazy star tries the rest of the
    pattern before it takes one more character, a greedy star after. *)

Inductive cclass :=
| CLit (c : N)            (* one literal character *)
| CDot                    (* [.]: anything but a newline *)
| CSpace                  (* [\s] *)
| CDigit                  (* [\d] *)
| COneOf (cs : list N).   (* a set [[...]] *)

Definition cmatch (k : cclass) (x : N) : bool :=
  match k with
  | CLit c => x =? c
  | CDot => negb (x =? 0xA)
  | CSpace => is_space x
  | CDigit => is_decimal x
  | COneOf cs => existsb (N.eqb x) cs
  end.

Inductive item :=
| One (k : cclass)
| LazyStar (k : cclass)
| GreedyStar (k : cclass).

Definition regex := list item.

Definition lits (s : ustr) : regex := map (fun c => One (CLit c)) s.
Definition exactly (n : nat) (k : cclass) : regex := replicate n (One k).
Definition at_least (n : nat) (k : cclass) : regex :=
  replicate n (One k) ++ [GreedyStar k].

(** [rm p accept moved s]: the length of the first match of [p] at the
    head of [s], in backtracking order, among those the caller accepts;
    [moved] tells whether the match has consumed a character so far, and
    [accept] sees it together with what is left of the subject. *)
Fixpoint rm (p : regex) (accept : bool -> ustr -> bool) {struct p}
  : bool -> ustr -> option nat :=
  match p with
  | [] => fun moved s => if accept moved s then Some 0%nat else None
  | One k :: p' => fun moved s =>
      match s with
      | x :: s' => if cmatch k x then S <$> rm p' accept true s' else None
      | [] => None
      end
  | LazyStar k :: p' =>
      fix lazy (moved : bool) (s : ustr) {struct s} : option nat :=
        match rm p' accept moved s with
        | Some n => Some n
        | None =>
            match s with
            | x :: s' => if cmatch k x then S <$> lazy true s' else None
            | [] => None
            end
        end
  | GreedyStar k :: p' =>
      fix greedy (moved : bool) (s : ustr) {struct s} : option nat :=
        match s with
        | x :: s' =>
            if cmatch k x then
              match greedy true s' with
              | Some n => Some (S n)
              | None => rm p' accept moved s
              end
            else rm p' accept moved s
        | [] => rm p' accept moved []
        end
  end.

(** A match attempt of [re.sub] at one position: after an empty match the
    next one at the same position must consume something. *)
Definition match_here (p : regex) (must_advance : bool) (s : ustr) : option nat :=
  rm p (fun moved _ => moved || negb must_advance) false s.

(** [re.fullmatch(p, s) is not None] *)
Definition re_fullmatch (p : regex) (s : ustr) : bool :=
  bool_decide (is_Some (rm p (fun _ rest => bool_decide (rest = [])) false s)).

(** [re.sub(p, "", s)], scanning left to right.  [skip] counts the
    characters of the current match still to be dropped. *)
Fixpoint sub_loop (p : regex) (skip : nat) (s : ustr) : ustr :=
  match s with
  | [] => []
  | x :: s' =>
      match skip with
      | S k => sub_loop p k s'
      | O =>
          match match_here p false s with
          | Some (S n) => sub_loop p n s'
          | Some O =>
              match match_here p true s with
              | Some (S n) => sub_loop p n s'
              | _ => x :: sub_loop p 0 s'
              end
          | None => x :: sub_loop p 0 s'
          end
      end
  end.

Definition re_sub (p : regex) (s : ustr) : ustr := sub_loop p 0 s.

(** ** clean_text *)

Definition patterns : list regex :=
  [ [One (CLit 0x23); LazyStar CDot] ++ lits (U "セット");
    [One (CLit 0x3010); LazyStar CDot; One (CLit 0x3011)];
    [One (CLit 0x2F); LazyStar CDot];
    lits (U "韓コスメ");
    lits (U "口紅");
    lits (U "リップ");
    lits (U "アワグロウ");
    [One (COneOf (U "[]【】#"))];
    at_least 2 CSpace ].

Definition clean_str (text : ustr) : ustr :=
  let text := fold_left (fun t pat => re_sub pat t) patterns text in
  re_sub (at_least 1 CSpace) (strip text).

Definition clean_text (text : pyval) : ustr :=
  match text with
  | PStr s => clean_str s
  | _ => []
  end.

(** ** difflib.SequenceMatcher

    [SequenceMatcher(None, a, b)]: no junk predicate, [autojunk] on. *)

Local Open Scope nat_scope.

Definition enumerate {A} (l : list A) : list (nat * A) := imap pair l.

(** [__chain_b]: for each element of [b] the ascending list of its
    positions; when [b] has 200 elements or more, the elements that occur
    more than [n // 100 + 1] times are popular and lose their entry. *)
Definition chain_b (b : ustr) : gmap N (list nat) :=
  let b2j :=
    foldl (fun (m : gmap N (list nat)) (p : nat * N) =>
             <[p.2 := default [] (m !! p.2) ++ [p.1]]> m)
          ∅ (enumerate b) in
  let n := length b in
  if 200 <=? n then
    let ntest := n / 100 + 1 in
    filter (fun p : N * list nat => ¬ ntest < length p.2) b2j
  else b2j.

(** [bjunk] is empty when [isjunk] is [None]. *)
Definition isbjunk (x : N) : bool := false.

Section FindLongestMatch.
Variables a b : ustr.
Variable b2j : gmap N (list nat).

(** [a[i] == b[j]] for positions inside both sequences *)
Definition same_at (i j : nat) : bool :=
  match a !! i, b !! j with
  | Some x, Some y => (x =? y)%N
  | _, _ => false
  end.

Definition junk_at (j : nat) : bool :=
  match b !! j with
  | Some y => isbjunk y
  | None => false
  end.

(** [j2len.get(j-1, 0)]; the key [-1] is never in the dictionary. *)
Definition j2len_prev (j2len : gmap nat nat) (j : nat) : nat :=
  match j with
  | O => 0
  | S j' => default 0 (j2len !! j')
  end.

(** The inner loop over the positions [js] of [a[i]] in [b], with its
    [continue] below [blo] and its [break] at [bhi].  A match is the
    triple [(besti, bestj, bestsize)]. *)
Fixpoint scan_row (i blo bhi : nat) (j2len : gmap nat nat) (js : list nat)
    (newj2len : gmap nat nat) (best : nat * nat * nat)
  : gmap nat nat * (nat * nat * nat) :=
  match js with
  | [] => (newj2len, best)
  | j :: js' =>
      if j <? blo then scan_row i blo bhi j2len js' newj2len best
      else if bhi <=? j then (newj2len, best)
      else
        let k := j2len_prev j2len j + 1 in
        let best' := if best.2 <? k then (i + 1 - k, j + 1 - k, k) else best in
        scan_row i blo bhi j2len js' (<[j := k]> newj2len) best'
  end.

Definition scan_rows (alo ahi blo bhi : nat) : nat * nat * nat :=
  (foldl (fun (st : gmap nat nat * (nat * nat * nat)) (i : nat) =>
            let js := match a !! i with
                      | Some x => default [] (b2j !! x)
                      | None => []
                      end in
            scan_row i blo bhi st.1 js ∅ st.2)
         (∅, (alo, blo, 0)) (seq alo (ahi - alo))).2.

(** The two kinds of [while] loops that grow the match at its ends;
    [junk] selects the test on [isbjunk]. *)
Fixpoint extend_left (junk : bool) (alo blo besti bestj bestsize : nat)
    {struct besti} : nat * nat * nat :=
  match besti, bestj with
  | S i', S j' =>
      if (alo <? besti) && (blo <? bestj)
         && eqb (junk_at j') junk && same_at i' j'
      then extend_left junk alo blo i' j' (bestsize + 1)
      else (besti, bestj, bestsize)
  | _, _ => (besti, bestj, bestsize)
  end.

(** [gap] is [ahi - (besti + bestsize)], the number of steps after
    which the first test of the loop fails. *)
Fixpoint extend_right (junk : bool) (ahi bhi besti bestj bestsize gap : nat)
    {struct gap} : nat :=
  match gap with
  | O => bestsize
  | S gap' =>
      if (besti + bestsize <? ahi) && (bestj + bestsize <? bhi)
         && eqb (junk_at (bestj + bestsize)) junk
         && same_at (besti + bestsize) (bestj + bestsize)
      then extend_right junk ahi bhi besti bestj (bestsize + 1) gap'
      else bestsize
  end.

Definition grow (junk : bool) (alo ahi blo bhi : nat) (m : nat * nat * nat)
  : nat * nat * nat :=
  let '(besti, bestj, bestsize) := m in
  let '(besti, bestj, bestsize) := extend_left junk alo blo besti bestj bestsize in
  (besti, bestj,
   extend_right junk ahi bhi besti bestj bestsize (ahi - (besti + bestsize))).

Definition find_longest_match (alo ahi blo bhi : nat) : nat * nat * nat :=
  grow true alo ahi blo bhi
    (grow false alo ahi blo bhi (scan_rows alo ahi blo bhi)).

(** The loop of [get_matching_blocks] over its stack of windows;
    [None] when the fuel runs out before the stack is empty. *)
Fixpoint blocks_loop (fuel : nat) (queue : list (nat * nat * nat * nat))
    (matching_blocks : list (nat * nat * nat)) : option (list (nat * nat * nat)) :=
  match queue with
  | [] => Some matching_blocks
  | (alo, ahi, blo, bhi) :: queue =>
      match fuel with
      | O => None
      | S fuel =>
          let '(i, j, k) := find_longest_match alo ahi blo bhi in
          if k =? 0 then blocks_loop fuel queue matching_blocks
          else
            let queue :=
              if (alo <? i) && (blo <? j) then (alo, i, blo, j) :: queue
              else queue in
            let queue :=
              if (i + k <? ahi) && (j + k <? bhi) then (i + k, ahi, j + k, bhi) :: queue
              else queue in
            blocks_loop fuel queue (matching_blocks ++ [(i, j, k)])
      end
  end.
End FindLongestMatch.

(** The blocks found, in the order the loop finds them.  The sort and the
    merge of adjacent blocks that follow in [get_matching_blocks] do not
    change the sum of the sizes, which is all [ratio] uses.  The fuel is
    enough for every pair of sequences ([blocks_loop_fuel] below). *)
Definition matching_blocks (a b : ustr) : list (nat * nat * nat) :=
  default [] (blocks_loop a b (chain_b b) (S (length a))
                [(0, length a, 0, length b)] []).

Definition matches (a b : ustr) : nat :=
  foldr (fun t acc => t.2 + acc) 0 (matching_blocks a b).

(** [_calculate_ratio(matches, len(a) + len(b))] *)
Definition ratio (a b : ustr) : Q :=
  let length := length a + length b in
  if length =? 0 then 1%Q
  else (2 * Z.of_nat (matches a b) # Pos.of_nat length)%Q.

(** ** match_items *)

(** A [dict] with integer keys and values, in insertion order;
    [dict_set] is [d[k] = v]. *)
Fixpoint dict_set (k v : nat) (d : list (nat * nat)) : list (nat * nat) :=
  match d with
  | [] => [(k, v)]
  | (k', v') :: d' =>
      if k =? k' then (k, v) :: d' else (k', v') :: dict_set k v d'
  end.

Fixpoint dict_get (k : nat) (d : list (nat * nat)) : option nat :=
  match d with
  | [] => None
  | (k', v') :: d' => if k =? k' then Some v' else dict_get k d'
  end.

Definition Qgtb (x y : Q) : bool := negb (Qle_bool x y).

(** One turn of the inner loop: the state is [(best, best_idx)]. *)
Definition scan_step (threshold : Q) (src : ustr)
    (st : Q * option nat) (jt : nat * ustr) : Q * option nat :=
  let score := ratio src jt.2 in
  if Qgtb score threshold && Qgtb score st.1 then (score, Some jt.1) else st.

Definition best_match (threshold : Q) (src : ustr) (tgt_list : list ustr)
  : Q * option nat :=
  foldl (scan_step threshold src) (0%Q, None) (enumerate tgt_list).

Definition match_items (src_list tgt_list : list ustr) (threshold : Q)
  : list (nat * nat) :=
  foldl (fun mapping (p : nat * ustr) =>
           match (best_match threshold p.2 tgt_list).2 with
           | Some best_idx => dict_set p.1 best_idx mapping
           | None => mapping
           end)
        [] (enumerate src_list).

(** The default of the keyword argument, [threshold=0.3]. *)
Definition default_threshold : Q := (3 # 10)%Q.

(** ** format_postal *)

Inductive exn := OverflowError | ValueError | KeyError.

Inductive result (A : Type) :=
| Ok (a : A)
| Raise (e : exn).
Arguments Ok {A} a.
Arguments Raise {A} e.

Definition bind {A B} (m : result A) (k : A -> result B) : result B :=
  match m with
  | Ok a => k a
  | Raise e => Raise e
  end.

Notation "'let*' x ':=' m 'in' k" := (bind m (fun x => k))
  (at level 10, x name, m at level 100, k at level 200).

(** [int(f)] for a float: truncation towards zero; infinities and NaN
    have no integer value. *)
Definition int_of_float (f : spec_float) : result Z :=
  match f with
  | S754_zero _ => Ok 0%Z
  | S754_infinity _ => Raise OverflowError
  | S754_nan => Raise ValueError
  | S754_finite s m e =>
      let mag := if (0 <=? e)%Z then (Z.pos m * 2 ^ e)%Z
                 else (Z.pos m / 2 ^ (- e))%Z in
      Ok (if s then (- mag)%Z else mag)
  end.

(** The decimal text of an integer: its digits, with a minus sign when
    negative. *)
Definition str_of_int (z : Z) : ustr :=
  map N_of_ascii (list_ascii_of_string (NilZero.string_of_int (Z.to_int z))).

(** The number of digits above which CPython refuses to convert an
    integer to text ([sys.get_int_max_str_digits()], 4300 unless it has
    been changed; the sign does not count). *)
Definition max_str_digits : nat := 4300.

(** [str(z)] for an integer as [format_postal] calls it: [ValueError]
    when [z] has more digits than the limit. *)
Definition str_int (z : Z) : result ustr :=
  if max_str_digits <? length (str_of_int (Z.abs z)) then Raise ValueError
  else Ok (str_of_int z).

(** [s.zfill(width)]: zeros on the left, after a leading sign. *)
Definition zfill (width : nat) (s : ustr) : ustr :=
  let fill := width - length s in
  if fill =? 0 then s
  else
    match s with
    | c :: s' =>
        if (c =? 0x2B)%N || (c =? 0x2D)%N then c :: replicate fill 0x30%N ++ s'
        else replicate fill 0x30%N ++ s
    | [] => replicate fill 0x30%N
    end.

Definition no_postal_code : ustr := U "우편번호없음".

(** The pattern [\d{3}-\d{4}]. *)
Definition postal_re : regex :=
  exactly 3 CDigit ++ [One (CLit 0x2D)] ++ exactly 4 CDigit.

(** The test [isinstance(postal, str) and re.fullmatch(...)], with the
    value the branch returns. *)
Definition already_formatted (postal : pyval) : option ustr :=
  match postal with
  | PStr s0 => if re_fullmatch postal_re (strip s0) then Some (strip s0) else None
  | _ => None
  end.

Definition format_postal (postal : pyval) : result ustr :=
  if isna postal then Ok no_postal_code
  else
    match already_formatted postal with
    | Some s0 => Ok s0
    | None =>
        let* postal :=
          match postal with
          | PBool b => let* s0 := str_int (if b then 1 else 0) in Ok (PStr s0)
          | PInt z => let* s0 := str_int z in Ok (PStr s0)
          | PFloat f =>
              let* z := int_of_float f in let* s0 := str_int z in Ok (PStr s0)
          | _ => Ok postal
          end in
        match postal with
        | PStr s0 =>
            let digits := zfill 7 s0 in
            if isdigit digits && (length digits =? 7)
            then Ok (take 3 digits ++ [0x2D%N] ++ drop 3 digits)
            else Ok no_postal_code
        | _ => Ok no_postal_code
        end
    end.

(** ** The tables *)

(** A row of the catalog H; the columns are 출고상품명, 상품 shoppingmall
    url, unit_total price, 상품코드 and 바코드. *)
Record CatalogRow := {
  h_name : pyval;
  h_url : pyval;
  h_price : pyval;
  h_code : pyval;
  h_barcode : pyval
}.

(** The columns of the order sheet S that the script reads or writes. *)
Inductive column :=
| order_no
| item_name
| item_pcs
| shoppingmall_url          (* 상품 shoppingmall url *)
| unit_total_price          (* unit_total price *)
| service_code              (* service code *)
| consignee_country_code    (* consignee_국가코드 *)
| pkg
| item_origin
| currency
| consignee_address         (* consignee_address (en)_jp지역 현지어 기재 *)
| consignee_postalcode.     (* consignee_ postalcode *)

Global Instance column_eq_dec : EqDecision column.
Proof. solve_decision. Defined.

Definition all_columns : list column :=
  [order_no; item_name; item_pcs; shoppingmall_url; unit_total_price;
   service_code; consignee_country_code; pkg; item_origin; currency;
   consignee_address; consignee_postalcode].

(** A row of the order sheet: the cells of the columns above and the
    cells of whatever other columns the sheet has. *)
Record OrderRow := {
  cell : column -> pyval;
  others : list pyval
}.

(** [r[c] = v] *)
Definition set_cell (c : column) (v : pyval) (r : OrderRow) : OrderRow :=
  {| cell := fun c' => if bool_decide (c' = c) then v else cell r c';
     others := others r |}.

(** [r.dropna().shape[0]] *)
Definition count_notna (r : OrderRow) : nat :=
  length (filter (fun v => isna v = false) (map (cell r) all_columns ++ others r)).

(** A row of the DR sheet; the columns are ref_no (주문번호), 하이브
    상품코드, 상품명, 수량 and 바코드. *)
Record DRRow := {
  dr_ref_no : pyval;
  dr_code : pyval;
  dr_name : pyval;
  dr_qty : pyval;
  dr_barcode : pyval
}.

(** The three frames the script holds while it runs. *)
Record frames := {
  df_H : list CatalogRow;
  df_S_upd : list OrderRow;
  df_DR : list DRRow
}.

(** ** The run of the script on a catalog and an order sheet *)

(** A [for] loop whose body may raise. *)
Fixpoint for_each {S A} (body : S -> A -> result S) (st : S) (l : list A)
  : result S :=
  match l with
  | [] => Ok st
  | x :: l' => let* st' := body st x in for_each body st' l'
  end.

(** [Series.apply(f)] for an [f] that may raise. *)
Fixpoint apply_column (c : column) (f : pyval -> result pyval)
    (df : list OrderRow) : result (list OrderRow) :=
  match df with
  | [] => Ok []
  | r :: df' =>
      let* v := f (cell r c) in
      let* rest := apply_column c f df' in
      Ok (set_cell c v r :: rest)
  end.

(** [df.at[i, ...]] on the catalog; a label that is not in the index is a
    [KeyError]. *)
Definition H_at (df : list CatalogRow) (i : nat) : result CatalogRow :=
  match df !! i with
  | Some r => Ok r
  | None => Raise KeyError
  end.

Definition h_names_clean (df_H : list CatalogRow) : list ustr :=
  map (fun r => clean_text (fillna_empty (h_name r))) df_H.

(** The body of the first propagation loop. *)
Definition s2h_body (st : frames) (p : nat * nat) : result frames :=
  let '(s_idx, h_idx) := p in
  let* h := H_at (df_H st) h_idx in
  let st := {| df_H := df_H st;
               df_S_upd := alter (set_cell shoppingmall_url (h_url h)) s_idx (df_S_upd st);
               df_DR := df_DR st |} in
  let* h := H_at (df_H st) h_idx in
  Ok {| df_H := df_H st;
        df_S_upd := alter (set_cell unit_total_price (h_price h)) s_idx (df_S_upd st);
        df_DR := df_DR st |}.

(** The body of the second propagation loop. *)
Definition dr2h_body (st : frames) (p : nat * nat) : result frames :=
  let '(dr_idx, h_idx) := p in
  let* h := H_at (df_H st) h_idx in
  let st := {| df_H := df_H st; df_S_upd := df_S_upd st;
               df_DR := alter (fun d => {| dr_ref_no := dr_ref_no d; dr_code := h_code h;
                                           dr_name := dr_name d; dr_qty := dr_qty d;
                                           dr_barcode := dr_barcode d |})
                              dr_idx (df_DR st) |} in
  let* h := H_at (df_H st) h_idx in
  let st := {| df_H := df_H st; df_S_upd := df_S_upd st;
               df_DR := alter (fun d => {| dr_ref_no := dr_ref_no d; dr_code := dr_code d;
                                           dr_name := dr_name d; dr_qty := dr_qty d;
                                           dr_barcode := h_barcode h |})
                              dr_idx (df_DR st) |} in
  let* h := H_at (df_H st) h_idx in
  Ok {| df_H := df_H st; df_S_upd := df_S_upd st;
        df_DR := alter (fun d => {| dr_ref_no := dr_ref_no d; dr_code := dr_code d;
                                    dr_name := h_name h; dr_qty := dr_qty d;
                                    dr_barcode := dr_barcode d |})
                       dr_idx (df_DR st) |}.

(** The order-number rule, [lambda x: "86" + x if not x.startswith("86") else x]. *)
Definition add_prefix (x : ustr) : ustr :=
  if negb (startswith (U "86") x) then U "86" ++ x else x.

(** The five pairs of the override loop. *)
Definition fixed_values : list (column * ustr) :=
  [(service_code, U "99");
   (consignee_country_code, U "JP");
   (pkg, U "1");
   (item_origin, U "KR");
   (currency, U "JPY")].

(** [lambda r, c=col, v=val: v if r.dropna().shape[0] > 1 else r[c]],
    stored back in column [c] of the row. *)
Definition override_row (c : column) (v : ustr) (r : OrderRow) : OrderRow :=
  set_cell c (if 1 <? count_notna r then PStr v else cell r c) r.

(** The five overrides in turn on one row. *)
Definition override_all (r : OrderRow) : OrderRow :=
  foldl (fun r (cv : column * ustr) => override_row cv.1 cv.2 r) r fixed_values.

(** The pattern [\[.*?\]] and the rule of the address column. *)
Definition bracket_re : regex := [One (CLit 0x5B); LazyStar CDot; One (CLit 0x5D)].

Definition strip_brackets (x : pyval) : pyval :=
  match x with
  | PStr s => PStr (re_sub bracket_re s)
  | _ => x
  end.

(** The DR sheet before propagation: three columns come from the order
    sheet, the other two are empty. *)
Definition assemble_DR (df_S_upd : list OrderRow) : list DRRow :=
  map (fun r => {| dr_ref_no := cell r order_no; dr_code := NaN;
                   dr_name := cell r item_name; dr_qty := cell r item_pcs;
                   dr_barcode := NaN |}) df_S_upd.

Definition dr_names_clean (df_DR : list DRRow) : list ustr :=
  map (fun d => clean_text (fillna_empty (dr_name d))) df_DR.

Section Run.
(** [repr] of a finite float that is not zero, which the script reaches
    only through [astype(str)] on the order numbers. *)
Variable float_repr : bool -> positive -> Z -> ustr.

(** [astype(str)] on one cell: [str] of the value, "True" or "False"
    for a truth value and "nan" for a missing float.  An integer read
    from a workbook is within the limit of [str]. *)
Definition py_str (v : pyval) : ustr :=
  match v with
  | PNone => U "None"
  | PBool b => if b then U "True" else U "False"
  | PInt z => str_of_int z
  | PStr s => s
  | PFloat S754_nan => U "nan"
  | PFloat (S754_infinity s) => if s then U "-inf" else U "inf"
  | PFloat (S754_zero s) => if s then U "-0.0" else U "0.0"
  | PFloat (S754_finite s m e) => float_repr s m e
  end.

(** The order-number rule on a cell: [astype(str)], then the prefix. *)
Definition prefix_order_no (v : pyval) : pyval := PStr (add_prefix (py_str v)).

(** Step 2 of the script, the column rules. *)
Definition apply_rules (df : list OrderRow) : result (list OrderRow) :=
  let df := map (fun r => set_cell order_no (prefix_order_no (cell r order_no)) r) df in
  let df := foldl (fun df (cv : column * ustr) => map (override_row cv.1 cv.2) df)
                  df fixed_values in
  let df := map (fun r => set_cell consignee_address
                            (strip_brackets (cell r consignee_address)) r) df in
  apply_column consignee_postalcode
    (fun v => let* s := format_postal v in Ok (PStr s)) df.

Definition s_names_clean (df_S : list OrderRow) : list ustr :=
  map (fun r => clean_text (fillna_empty (cell r item_name))) df_S.

Definition run (H : list CatalogRow) (df_S : list OrderRow) : result frames :=
  let h_names := h_names_clean H in
  let s2h := match_items (s_names_clean df_S) h_names default_threshold in
  let st := {| df_H := H; df_S_upd := df_S; df_DR := [] |} in
  let* st := for_each s2h_body st s2h in
  let* upd := apply_rules (df_S_upd st) in
  let st := {| df_H := df_H st; df_S_upd := upd; df_DR := assemble_DR upd |} in
  let dr2h := match_items (dr_names_clean (df_DR st)) h_names default_threshold in
  for_each dr2h_body st dr2h.
End Run.

(** ** Predicates and examples used in the statements below *)

(** What the inner loop has found after the targets [l]. *)
Definition scan_inv (threshold : Q) (src : ustr) (l : list ustr)
    (st : Q * option nat) : Prop :=
  match st.2 with
  | None =>
      (st.1 == 0)%Q /\
      forall j t, l !! j = Some t -> (ratio src t <= threshold)%Q
  | Some j =>
      exists t, l !! j = Some t /\ st.1 = ratio src t /\
        (threshold < ratio src t)%Q /\
        (forall j' t', l !! j' = Some t' -> (ratio src t' <= ratio src t)%Q) /\
        (forall j' t', j' < j -> l !! j' = Some t' -> (ratio src t' < ratio src t)%Q)
  end.

(** A cell holds no value: it is [None] or the float NaN. *)
Definition missing (v : pyval) : Prop := v = PNone \/ v = NaN.

(** The cells of a row, those of the named columns first. *)
Definition row_cells (r : OrderRow) : list pyval :=
  map (cell r) all_columns ++ others r.

(** More than one cell of the row holds a value: two cells at different
    places of the row are not missing. *)
Definition more_than_one_value (r : OrderRow) : Prop :=
  exists i j vi vj, i <> j /\ row_cells r !! i = Some vi /\ row_cells r !! j = Some vj /\
                    ~ missing vi /\ ~ missing vj.

(** The columns the script never writes in the order sheet. *)
Definition untouched (c : column) : Prop := c = item_name \/ c = item_pcs.

(** A match [(besti, _, bestsize)] that starts at [alo] or later and
    ends at [hi] or before. *)
Definition inside (alo hi : nat) (m : nat * nat * nat) : Prop :=
  alo <= m.1.1 /\ m.1.1 + m.2 <= hi.

(** Every length stored in [j2len] is at most [n]. *)
Definition lens_le (n : nat) (j2len : gmap nat nat) : Prop :=
  forall j v, j2len !! j = Some v -> v <= n.

(** The same on the side of [b]: a match [(_, bestj, bestsize)] that
    starts at [blo] or later and ends at [hi] or before. *)
Definition inside_b (blo hi : nat) (m : nat * nat * nat) : Prop :=
  blo <= m.1.2 /\ m.1.2 + m.2 <= hi.

(** Every entry of [j2len] is at a position of the window of [b], and
    its length does not reach below the window. *)
Definition lens_b (blo bhi : nat) (j2len : gmap nat nat) : Prop :=
  forall j v, j2len !! j = Some v -> blo <= j /\ j < bhi /\ v <= j + 1 - blo.

(** The sum of the sizes of a list of blocks, as [ratio] takes it. *)
Definition sizes (l : list (nat * nat * nat)) : nat :=
  foldr (fun t acc => t.2 + acc) 0 l.

(** The turns a window can cost. *)
Definition weight (w : nat * nat * nat * nat) : nat :=
  Nat.max 1 (w.1.1.2 - w.1.1.1).

(** The tables of the end-to-end example. *)
Definition catalog_name : ustr := U "Premium Red Lipstick #001セット".
Definition order_item_name : ustr := U "【Premium Red Lipstick #001セット】".

(** The catalog of the example, with its other two cells empty. *)
Definition example_H : list CatalogRow :=
  [{| h_name := PStr catalog_name; h_url := NaN; h_price := NaN;
      h_code := PStr (U "P1"); h_barcode := PStr (U "B1") |}].

(** The order row of the example, with every other cell empty. *)
Definition example_row : OrderRow :=
  {| cell := fun c => match c with
                      | item_name => PStr order_item_name
                      | item_pcs => PInt 2
                      | _ => NaN
                      end;
     others := [] |}.

(** Three digits, a hyphen and four digits, a digit being what
    [str.isdigit] accepts. *)
Definition postal_shape (s : ustr) : Prop :=
  exists a b, s = a ++ [0x2D%N] ++ b /\ length a = 3 /\ length b = 4 /\
              forallb is_digit (a ++ b) = true.

(** The number of cells of a row that are not missing, the order number
    left aside. *)
Definition count_other (r : OrderRow) : nat :=
  length (filter (fun v => isna v = false)
                 (map (cell r) (tail all_columns) ++ others r)).

(** A catalog of one row with a shop address and a price, and an order
    sheet of two rows: the row of the example, whose key is empty, and a
    row whose item name has the key of the catalog row. *)
Definition example_catalog : list CatalogRow :=
  [{| h_name := PStr catalog_name; h_url := PStr (U "https://shop.example/p1");
      h_price := PInt 1500;
      h_code := PStr (U "P1"); h_barcode := PStr (U "B1") |}].

Definition example_orders : list OrderRow :=
  [example_row;
   {| cell := fun c => match c with
                       | order_no => PInt 12345
                       | item_name => PStr (U "Premium Red Lipstick")
                       | item_pcs => PInt 3
                       | consignee_address => PStr (U "[Tokyo] Minato 1-2")
                       | consignee_postalcode => PInt 1234567
                       | _ => NaN
                       end;
      others := [] |}].

(** * Properties *)

(** ** Examples of the embedded library functions *)

Example clean_catalog_name :
  clean_text (PStr (U "Premium Red Lipstick #001セット")) = U "PremiumRedLipstick".
Proof. vm_compute. reflexivity. Qed.

Example clean_order_name :
  clean_text (PStr (U "【Premium Red Lipstick #001セット】")) = [].
Proof. vm_compute. reflexivity. Qed.

Example ratio_doc : Qeq_bool (ratio (U "abxcd") (U "abcd")) (8 # 9) = true.
Proof. vm_compute. reflexivity. Qed.

Example ratio_disjoint : Qeq_bool (ratio (U "ABC") (U "XYZ")) 0 = true.
Proof. vm_compute. reflexivity. Qed.

Example match_items_doc :
  match_items [U "ABC"] [U "ABC"; U "XYZ"] default_threshold = [(0, 0)].
Proof. vm_compute. reflexivity. Qed.

(** ** format_postal: the vectors of the specification *)

(** C4: [format_postal(1234567)] is "123-4567"; [format_postal(123456)]
    is "012-3456", the zero being added on the left; an already
    formatted string comes back as it is, also when it is surrounded by
    whitespace, which is trimmed; a missing value and the string "abcde"
    give the text standing for "no postal code". *)
Theorem format_postal_vectors :
  format_postal (PInt 1234567) = Ok (U "123-4567") /\
  format_postal (PInt 123456) = Ok (U "012-3456") /\
  format_postal (PStr (U "123-4567")) = Ok (U "123-4567") /\
  format_postal (PStr (U "  123-4567 ")) = Ok (U "123-4567") /\
  format_postal NaN = Ok no_postal_code /\
  format_postal PNone = Ok no_postal_code /\
  format_postal (PStr (U "abcde")) = Ok no_postal_code.
Proof. repeat split; vm_compute; reflexivity. Qed.

(** C9 at the input [float('inf')]: the conversion [int(postal)] raises
    [OverflowError], so the function returns neither a formatted code
    nor the text for "no postal code". *)
Theorem format_postal_infinity_raises :
  format_postal (PFloat (S754_infinity false)) = Raise OverflowError /\
  format_postal (PFloat (S754_infinity true)) = Raise OverflowError.
Proof. split; reflexivity. Qed.

(** ** The order-number rule *)

Lemma startswith_take (p s : ustr) :
  startswith p s = bool_decide (take (length p) s = p).
Proof.
  revert s; induction p as [|a p IH]; intros [|b s]; simpl; try reflexivity.
  rewrite IH. destruct (N.eqb_spec a b) as [->|Hne]; simpl.
  - apply bool_decide_ext. split; [congruence | intros [= ->]; reflexivity].
  - symmetry. apply bool_decide_eq_false. intros [= Hb _]. congruence.
Qed.

(** C8: the order number is converted to text; when the text does not
    begin with the two characters "86" they are put in front of it, and
    when it does it is kept as it is.  "12345" becomes "8612345" and
    "8612345" stays. *)
Theorem order_no_prefixer (float_repr : bool -> positive -> Z -> ustr) (v : pyval) :
  let x := py_str float_repr v in
  prefix_order_no float_repr v
    = PStr (if bool_decide (take 2 x = U "86") then x else U "86" ++ x) /\
  prefix_order_no float_repr (PStr (U "12345")) = PStr (U "8612345") /\
  prefix_order_no float_repr (PStr (U "8612345")) = PStr (U "8612345").
Proof.
  split; [|split; reflexivity].
  unfold prefix_order_no, add_prefix. rewrite startswith_take.
  change (length (U "86")) with 2.
  destruct (bool_decide _); reflexivity.
Qed.

(** ** clean_text and the slash *)

Lemma sub_loop_elem (p : regex) (s : ustr) :
  forall skip c, c ∈ sub_loop p skip s -> c ∈ s.
Proof.
  induction s as [|x s IH]; intros skip c; simpl.
  - intros H; exact H.
  - destruct skip as [|k].
    + destruct (match_here p false (x :: s)) as [[|n]|].
      * destruct (match_here p true (x :: s)) as [[|n]|];
          rewrite ?elem_of_cons; intros H;
          try (destruct H as [->|H]; [left; reflexivity|]); right; eauto.
      * intros H. right; eauto.
      * rewrite !elem_of_cons. intros [->|H]; [left; reflexivity|right; eauto].
    + intros H. right; eauto.
Qed.

Lemma re_sub_elem (p : regex) (s : ustr) (c : N) : c ∈ re_sub p s -> c ∈ s.
Proof. apply sub_loop_elem. Qed.

Lemma lstrip_elem (s : ustr) (c : N) : c ∈ lstrip s -> c ∈ s.
Proof.
  induction s as [|x s IH]; simpl; [tauto|].
  destruct (is_space x); [|tauto]. intros H. right. auto.
Qed.

Lemma strip_elem (s : ustr) (c : N) : c ∈ strip s -> c ∈ s.
Proof.
  unfold strip, rstrip. rewrite list_elem_of_In, <- in_rev, <- list_elem_of_In.
  intros H. apply lstrip_elem in H.
  rewrite list_elem_of_In, <- in_rev, <- list_elem_of_In in H.
  apply lstrip_elem, H.
Qed.

Lemma fold_re_sub_elem (ps : list regex) (s : ustr) (c : N) :
  c ∈ fold_left (fun t pat => re_sub pat t) ps s -> c ∈ s.
Proof.
  revert s; induction ps as [|p ps IH]; intros s; simpl; [tauto|].
  intros H. apply IH in H. apply re_sub_elem in H. exact H.
Qed.

Lemma re_sub_slash (s : ustr) :
  re_sub [One (CLit 0x2F); LazyStar CDot] s = filter (fun c => c <> 0x2F%N) s.
Proof.
  unfold re_sub. induction s as [|x s IH]; [reflexivity|].
  rewrite filter_cons. cbn [sub_loop].
  assert (Hm : match_here [One (CLit 0x2F); LazyStar CDot] false (x :: s)
               = if (x =? 0x2F)%N then Some 1 else None).
  { unfold match_here. cbn [rm cmatch]. destruct (x =? 0x2F)%N; [|reflexivity].
    destruct s; reflexivity. }
  rewrite Hm. destruct (N.eqb_spec x 0x2F) as [->|Hne].
  - rewrite decide_False by (intros H; apply H; reflexivity). exact IH.
  - rewrite decide_True by exact Hne. f_equal. exact IH.
Qed.

Lemma fold_after_slash (pre rest : list regex) (s : ustr) (c : N) :
  c ∈ fold_left (fun t pat => re_sub pat t)
        (pre ++ [One (CLit 0x2F); LazyStar CDot] :: rest) s ->
  c <> 0x2F%N.
Proof.
  rewrite fold_left_app. cbn [fold_left]. intros H.
  apply fold_re_sub_elem in H. rewrite re_sub_slash in H.
  apply list_elem_of_filter in H. tauto.
Qed.

(** ** The override of the fixed columns *)

Lemma count_filter_map_le {A B} (P : B -> Prop) `{forall y, Decision (P y)}
    (f g : A -> B) (l : list A) :
  (forall x, P (f x) -> P (g x)) ->
  length (filter P (map f l)) <= length (filter P (map g l)).
Proof.
  intros Hfg. induction l as [|x l IH]; simpl; [lia|].
  rewrite !filter_cons. destruct (decide (P (f x))) as [Hf|Hf].
  - rewrite decide_True by auto. simpl. lia.
  - destruct (decide (P (g x))); simpl; lia.
Qed.

Lemma count_notna_set_cell (c : column) (v : ustr) (r : OrderRow) :
  count_notna r <= count_notna (set_cell c (PStr v) r).
Proof.
  unfold count_notna. rewrite !filter_app, !length_app. simpl others.
  apply Nat.add_le_mono_r, count_filter_map_le.
  intros c' Hc'. simpl. destruct (bool_decide (c' = c)); [reflexivity|exact Hc'].
Qed.

Lemma override_row_cell (c : column) (v : ustr) (r : OrderRow) (c' : column) :
  cell (override_row c v r) c'
  = if bool_decide (c' = c) then (if 1 <? count_notna r then PStr v else cell r c)
    else cell r c'.
Proof. reflexivity. Qed.

Lemma override_row_dense (c : column) (v : ustr) (r : OrderRow) :
  (1 <? count_notna (override_row c v r)) = (1 <? count_notna r).
Proof.
  unfold override_row. destruct (Nat.ltb_spec 1 (count_notna r)) as [Hd|Hs].
  - apply Nat.ltb_lt. pose proof (count_notna_set_cell c v r). lia.
  - apply Nat.ltb_ge.
    assert (count_notna (set_cell c (cell r c) r) = count_notna r) as ->; [|lia].
    unfold count_notna. simpl others. do 3 f_equal. apply map_ext. intros c'.
    simpl. case_bool_decide; congruence.
Qed.

Lemma override_loop_rows (l : list (column * ustr)) (df : list OrderRow) :
  foldl (fun df (cv : column * ustr) => map (override_row cv.1 cv.2) df) df l
  = map (fun r => foldl (fun r (cv : column * ustr) => override_row cv.1 cv.2 r) r l) df.
Proof.
  revert df; induction l as [|cv l IH]; intros df; simpl.
  - symmetry. apply map_id.
  - rewrite IH, map_map. reflexivity.
Qed.

Lemma sparse_row_override_cells (r : OrderRow) :
  let dense := 1 <? count_notna r in
  let r' := override_all r in
  cell r' service_code = (if dense then PStr (U "99") else cell r service_code) /\
  cell r' consignee_country_code
    = (if dense then PStr (U "JP") else cell r consignee_country_code) /\
  cell r' pkg = (if dense then PStr (U "1") else cell r pkg) /\
  cell r' item_origin = (if dense then PStr (U "KR") else cell r item_origin) /\
  cell r' currency = (if dense then PStr (U "JPY") else cell r currency) /\
  cell r' order_no = cell r order_no /\
  cell r' item_name = cell r item_name /\
  cell r' item_pcs = cell r item_pcs /\
  cell r' shoppingmall_url = cell r shoppingmall_url /\
  cell r' unit_total_price = cell r unit_total_price /\
  cell r' consignee_address = cell r consignee_address /\
  cell r' consignee_postalcode = cell r consignee_postalcode /\
  others r' = others r.
Proof.
  unfold override_all, fixed_values. cbn [foldl fst snd].
  repeat split;
    repeat (rewrite override_row_cell; cbn [bool_decide decide_rel column_eq_dec
              column_rec column_rect sumbool_rec sumbool_rect]);
    rewrite ?override_row_dense; try reflexivity.
Qed.

Lemma isna_missing (v : pyval) : isna v = false <-> ~ missing v.
Proof.
  unfold missing, NaN. split.
  - intros Hn [-> | ->]; discriminate Hn.
  - intros Hm. destruct v as [|b|z|f|s]; try reflexivity.
    + exfalso. apply Hm. left. reflexivity.
    + destruct f; try reflexivity. exfalso. apply Hm. right. reflexivity.
Qed.

Lemma filter_two {A} (P : A -> Prop) `{forall x, Decision (P x)} (l : list A) :
  1 < length (filter P l) <->
  exists i j vi vj, i <> j /\ l !! i = Some vi /\ l !! j = Some vj /\ P vi /\ P vj.
Proof.
  induction l as [|x l IH].
  - split; [simpl; lia|].
    intros (i & j & vi & vj & _ & Hi & _). rewrite lookup_nil in Hi. discriminate.
  - rewrite filter_cons. destruct (decide (P x)) as [Hx|Hx].
    + split.
      * intros Hlen. destruct (filter P l) as [|y t] eqn:E; [simpl in Hlen; lia|].
        assert (Hy : y ∈ filter P l) by (rewrite E; left).
        apply list_elem_of_filter in Hy as [HPy Hy].
        apply list_elem_of_lookup in Hy as [j Hj].
        exists 0, (S j), x, y. repeat split; auto.
      * intros (i & j & vi & vj & Hne & Hi & Hj & Hvi & Hvj).
        assert (Hin : exists v, v ∈ l /\ P v).
        { destruct i as [|i].
          - destruct j as [|j]; [contradiction|]. exists vj.
            split; [apply list_elem_of_lookup; eauto|exact Hvj].
          - exists vi. split; [apply list_elem_of_lookup; eauto|exact Hvi]. }
        destruct Hin as (v & Hv & HPv).
        assert (Hf : v ∈ filter P l) by (apply list_elem_of_filter; auto).
        destruct (filter P l) as [|y t]; [apply elem_of_nil in Hf; contradiction|].
        simpl. lia.
    + rewrite IH. split; intros (i & j & vi & vj & Hne & Hi & Hj & Hvi & Hvj).
      * exists (S i), (S j), vi, vj. repeat split; auto.
      * destruct i as [|i]; [simpl in Hi; injection Hi as <-; contradiction|].
        destruct j as [|j]; [simpl in Hj; injection Hj as <-; contradiction|].
        exists i, j, vi, vj. repeat split; auto.
Qed.

(** The test of the script, [r.dropna().shape[0] > 1], holds exactly
    when more than one cell of the row holds a value. *)
Lemma dense_spec (r : OrderRow) : 1 < count_notna r <-> more_than_one_value r.
Proof.
  unfold count_notna, more_than_one_value. rewrite filter_two.
  fold (row_cells r).
  split; intros (i & j & vi & vj & Hne & Hi & Hj & Hvi & Hvj);
    exists i, j, vi, vj; repeat split; auto; apply isna_missing; assumption.
Qed.

(** C5: the pairs are service code "99", consignee country code "JP",
    package count "1", item origin "KR" and currency "JPY".  One step of
    the loop puts the fixed value in the column of a row exactly when
    more than one cell of the whole row holds a value (two cells at
    different places are neither [None] nor NaN), and keeps the cell
    otherwise; the test looks at the whole row, not at the column.
    After the five steps each of the five columns holds its fixed value
    when the row had more than one value when the loop began and what it
    held otherwise, the other columns are as they were, and the loop
    over the frame is this change on each row. *)
Theorem sparse_row_override (r : OrderRow) :
  fixed_values = [(service_code, U "99"); (consignee_country_code, U "JP");
                  (pkg, U "1"); (item_origin, U "KR"); (currency, U "JPY")] /\
  (forall c v,
     (more_than_one_value r -> cell (override_row c v r) c = PStr v) /\
     (~ more_than_one_value r -> cell (override_row c v r) c = cell r c)) /\
  (let r' := override_all r in
   (more_than_one_value r ->
    cell r' service_code = PStr (U "99") /\
    cell r' consignee_country_code = PStr (U "JP") /\
    cell r' pkg = PStr (U "1") /\
    cell r' item_origin = PStr (U "KR") /\
    cell r' currency = PStr (U "JPY")) /\
   (~ more_than_one_value r ->
    cell r' service_code = cell r service_code /\
    cell r' consignee_country_code = cell r consignee_country_code /\
    cell r' pkg = cell r pkg /\
    cell r' item_origin = cell r item_origin /\
    cell r' currency = cell r currency) /\
   cell r' order_no = cell r order_no /\
   cell r' item_name = cell r item_name /\
   cell r' item_pcs = cell r item_pcs /\
   cell r' shoppingmall_url = cell r shoppingmall_url /\
   cell r' unit_total_price = cell r unit_total_price /\
   cell r' consignee_address = cell r consignee_address /\
   cell r' consignee_postalcode = cell r consignee_postalcode /\
   others r' = others r) /\
  (forall df : list OrderRow,
     foldl (fun df (cv : column * ustr) => map (override_row cv.1 cv.2) df)
           df fixed_values
     = map override_all df).
Proof.
  split; [reflexivity|]. split.
  { intros c v. rewrite override_row_cell, bool_decide_eq_true_2 by reflexivity.
    split; intros Hd.
    - apply dense_spec, Nat.ltb_lt in Hd. rewrite Hd. reflexivity.
    - assert (Hs : (1 <? count_notna r) = false).
      { apply Nat.ltb_ge. destruct (Nat.ltb_spec 1 (count_notna r)) as [Hl|Hl]; [|lia].
        destruct (Hd (proj1 (dense_spec r) Hl)). }
      rewrite Hs. reflexivity. }
  split; [|intros df; apply override_loop_rows].
  pose proof (sparse_row_override_cells r) as Hc. cbv zeta in Hc |- *.
  destruct Hc as (H1 & H2 & H3 & H4 & H5 & Hrest).
  split; [|split; [|exact Hrest]]; intros Hd.
  - apply dense_spec, Nat.ltb_lt in Hd. rewrite Hd in H1, H2, H3, H4, H5. auto.
  - assert (Hs : (1 <? count_notna r) = false).
    { apply Nat.ltb_ge. destruct (Nat.ltb_spec 1 (count_notna r)) as [Hl|Hl]; [|lia].
      destruct (Hd (proj1 (dense_spec r) Hl)). }
    rewrite Hs in H1, H2, H3, H4, H5. auto.
Qed.

Lemma sparse_row_override_witness :
  cell (override_all example_row) currency = PStr (U "JPY") /\
  cell (override_all (set_cell item_pcs NaN example_row)) currency = NaN.
Proof.
  split.
  - destruct (sparse_row_override example_row) as (_ & _ & (Hd & _) & _).
    apply Hd. exists 1, 2, (PStr order_item_name), (PInt 2).
    split; [discriminate|]. split; [reflexivity|]. split; [reflexivity|].
    split; intros [Hm|Hm]; discriminate Hm.
  - destruct (sparse_row_override (set_cell item_pcs NaN example_row))
      as (_ & _ & (_ & Hs & _) & _).
    refine (eq_trans (proj2 (proj2 (proj2 (proj2 (Hs _))))) _); [|reflexivity].
    intros Hm. apply dense_spec in Hm. vm_compute in Hm. lia.
Defined.

(** ** match_items *)

Lemma Qgtb_lt (x y : Q) : Qgtb x y = true <-> (y < x)%Q.
Proof.
  unfold Qgtb. rewrite negb_true_iff, <- not_true_iff_false, Qle_bool_iff.
  split; [apply Qnot_le_lt | apply Qlt_not_le].
Qed.

Lemma Qgtb_le (x y : Q) : Qgtb x y = false <-> (x <= y)%Q.
Proof.
  unfold Qgtb. rewrite negb_false_iff. apply Qle_bool_iff.
Qed.

Lemma enumerate_snoc {A} (l : list A) (x : A) :
  enumerate (l ++ [x]) = enumerate l ++ [(length l, x)].
Proof.
  unfold enumerate. rewrite imap_app. simpl. rewrite Nat.add_0_r. reflexivity.
Qed.

Lemma best_match_inv (threshold : Q) (src : ustr) (l : list ustr) :
  (0 <= threshold)%Q -> scan_inv threshold src l (best_match threshold src l).
Proof.
  intros Hthr. unfold best_match.
  induction l as [|t l IH] using rev_ind.
  - simpl. split; [reflexivity|]. intros j t Hj. rewrite lookup_nil in Hj. discriminate.
  - rewrite enumerate_snoc, foldl_app. simpl.
    destruct (foldl (scan_step threshold src) (0%Q, None) (enumerate l))
      as [best idx] eqn:Hst.
    unfold scan_inv in IH. simpl in IH. unfold scan_step. simpl.
    destruct (Qgtb (ratio src t) threshold) eqn:Hgt; simpl.
    + apply Qgtb_lt in Hgt.
      destruct (Qgtb (ratio src t) best) eqn:Hgb; simpl.
      * apply Qgtb_lt in Hgb. unfold scan_inv. simpl.
        exists t. rewrite lookup_app_r, Nat.sub_diag by lia.
        split; [reflexivity|]. split; [reflexivity|]. split; [exact Hgt|].
        assert (Hprev : forall j' t', l !! j' = Some t' -> (ratio src t' < ratio src t)%Q).
        { intros j' t' Hj'. destruct idx as [j|].
          - destruct IH as (t0 & _ & -> & _ & Hmax & _).
            specialize (Hmax _ _ Hj'). lra.
          - destruct IH as [_ Hle]. specialize (Hle _ _ Hj'). lra. }
        split.
        -- intros j' t' Hj'. apply lookup_app_Some in Hj' as [Hj'|[Hlen Hj']].
           ++ apply Qlt_le_weak. eauto.
           ++ destruct (j' - length l) as [|n]; simpl in Hj'; [|destruct n; discriminate].
              injection Hj' as <-. lra.
        -- intros j' t' Hlt Hj'. rewrite lookup_app_l in Hj' by exact Hlt. eauto.
      * apply Qgtb_le in Hgb. unfold scan_inv. simpl.
        destruct idx as [j|].
        -- destruct IH as (t0 & Hj & -> & Hthr0 & Hmax & Hfirst).
           exists t0. pose proof (lookup_lt_Some _ _ _ Hj) as Hjlt.
           rewrite lookup_app_l by exact Hjlt.
           repeat split; auto.
           ++ intros j' t' Hj'. apply lookup_app_Some in Hj' as [Hj'|[Hlen Hj']]; [eauto|].
              destruct (j' - length l) as [|n]; simpl in Hj'; [|destruct n; discriminate].
              injection Hj' as <-. exact Hgb.
           ++ intros j' t' Hlt Hj'. rewrite lookup_app_l in Hj' by lia. eauto.
        -- destruct IH as [Hz _]. lra.
    + apply Qgtb_le in Hgt. unfold scan_inv. simpl.
      destruct idx as [j|].
      * destruct IH as (t0 & Hj & -> & Hthr0 & Hmax & Hfirst).
        exists t0. pose proof (lookup_lt_Some _ _ _ Hj) as Hjlt.
        rewrite lookup_app_l by exact Hjlt.
        repeat split; auto.
        -- intros j' t' Hj'. apply lookup_app_Some in Hj' as [Hj'|[Hlen Hj']]; [eauto|].
           destruct (j' - length l) as [|n]; simpl in Hj'; [|destruct n; discriminate].
           injection Hj' as <-. lra.
        -- intros j' t' Hlt Hj'. rewrite lookup_app_l in Hj' by lia. eauto.
      * destruct IH as [Hz Hle]. split; [exact Hz|].
        intros j' t' Hj'. apply lookup_app_Some in Hj' as [Hj'|[Hlen Hj']]; [eauto|].
        destruct (j' - length l) as [|n]; simpl in Hj'; [|destruct n; discriminate].
        injection Hj' as <-. exact Hgt.
Qed.

Lemma dict_get_set_eq (k v : nat) (d : list (nat * nat)) :
  dict_get k (dict_set k v d) = Some v.
Proof.
  induction d as [|[k' v'] d IH]; simpl.
  - rewrite Nat.eqb_refl. reflexivity.
  - destruct (k =? k') eqn:E; simpl; rewrite ?E, ?Nat.eqb_refl; auto.
Qed.

Lemma dict_get_set_ne (k k' v : nat) (d : list (nat * nat)) :
  k <> k' -> dict_get k' (dict_set k v d) = dict_get k' d.
Proof.
  intros Hne. induction d as [|[k0 v0] d IH]; simpl.
  - destruct (Nat.eqb_spec k' k); [congruence|reflexivity].
  - destruct (Nat.eqb_spec k k0) as [->|Hk]; simpl.
    + destruct (Nat.eqb_spec k' k0); [congruence|reflexivity].
    + destruct (k' =? k0); [reflexivity|exact IH].
Qed.

Lemma dict_get_None (k : nat) (d : list (nat * nat)) :
  dict_get k d = None <-> k ∉ d.*1.
Proof.
  induction d as [|[k' v'] d IH]; simpl.
  - split; [intros _; apply not_elem_of_nil|reflexivity].
  - rewrite not_elem_of_cons. destruct (Nat.eqb_spec k k') as [->|Hk].
    + split; [discriminate|intros [H _]; congruence].
    + rewrite IH. tauto.
Qed.

Lemma dict_set_fresh (k v : nat) (d : list (nat * nat)) :
  k ∉ d.*1 -> dict_set k v d = d ++ [(k, v)].
Proof.
  induction d as [|[k' v'] d IH]; simpl; [reflexivity|].
  rewrite not_elem_of_cons. intros [Hk Hd].
  destruct (Nat.eqb_spec k k'); [congruence|]. rewrite IH by exact Hd. reflexivity.
Qed.

Lemma dict_get_elem (d : list (nat * nat)) (k v : nat) :
  NoDup d.*1 -> ((k, v) ∈ d <-> dict_get k d = Some v).
Proof.
  induction d as [|[k' v'] d IH]; simpl.
  - intros _. split; [intros H; apply elem_of_nil in H; contradiction|discriminate].
  - rewrite NoDup_cons. intros [Hk' Hd]. rewrite elem_of_cons, (IH Hd).
    destruct (Nat.eqb_spec k k') as [->|Hk].
    + split.
      * intros [[= ->]|H]; [reflexivity|].
        apply dict_get_None in Hk'. congruence.
      * intros [= ->]. left; reflexivity.
    + split; [intros [[= -> ->]|H]; [congruence|exact H] | intros H; right; exact H].
Qed.

(** What the outer loop has stored after the sources [l]: the keys are
    the positions below [length l] that have a best target, in order. *)
Lemma match_items_inv (l tgt_list : list ustr) (threshold : Q) :
  let mapping := match_items l tgt_list threshold in
  NoDup mapping.*1 /\
  forall i, dict_get i mapping
            = match l !! i with
              | Some src => (best_match threshold src tgt_list).2
              | None => None
              end.
Proof.
  unfold match_items. induction l as [|src l IH] using rev_ind.
  - simpl. split; [constructor|]. intros i. rewrite ?lookup_nil. reflexivity.
  - rewrite enumerate_snoc, foldl_app. simpl.
    set (m := foldl _ [] (enumerate l)) in *. destruct IH as [Hnd Hget].
    assert (Hfresh : length l ∉ m.*1).
    { apply dict_get_None. rewrite Hget, lookup_ge_None_2; [reflexivity|lia]. }
    destruct (best_match threshold src tgt_list).2 as [j|] eqn:Hbest.
    + rewrite dict_set_fresh by exact Hfresh. split.
      * rewrite fmap_app. simpl. apply NoDup_app. split; [exact Hnd|].
        split; [|apply NoDup_singleton].
        intros k Hk Hk'. apply list_elem_of_singleton in Hk'. subst k. auto.
      * intros i. rewrite <- dict_set_fresh by exact Hfresh.
        destruct (decide (i = length l)) as [->|Hi].
        -- rewrite dict_get_set_eq, lookup_app_r, Nat.sub_diag by lia. simpl. auto.
        -- rewrite dict_get_set_ne by auto. rewrite Hget.
           destruct (decide (i < length l)).
           ++ rewrite lookup_app_l by lia. reflexivity.
           ++ rewrite !lookup_ge_None_2; [reflexivity| |lia].
              rewrite length_app. simpl. lia.
    + split; [exact Hnd|]. intros i. rewrite Hget.
      destruct (decide (i = length l)) as [->|Hi].
      * rewrite lookup_ge_None_2 by lia.
        rewrite lookup_app_r, Nat.sub_diag by lia. simpl. auto.
      * destruct (decide (i < length l)).
        -- rewrite lookup_app_l by lia. reflexivity.
        -- rewrite !lookup_ge_None_2; [reflexivity| |lia].
           rewrite length_app. simpl. lia.
Qed.

(** When the threshold is not negative, a source position has an entry
    exactly when a target scores above the threshold. *)
Lemma match_items_has_entry (src_list tgt_list : list ustr) (threshold : Q)
    (i : nat) (src : ustr) :
  (0 <= threshold)%Q -> src_list !! i = Some src ->
  (is_Some (dict_get i (match_items src_list tgt_list threshold)) <->
   exists j tgt, tgt_list !! j = Some tgt /\ (threshold < ratio src tgt)%Q).
Proof.
  intros Hthr Hi.
  destruct (match_items_inv src_list tgt_list threshold) as [_ Hget].
  rewrite Hget, Hi.
  pose proof (best_match_inv threshold src tgt_list Hthr) as Hinv.
  unfold scan_inv in Hinv.
  destruct (best_match threshold src tgt_list).2 as [j|].
  - destruct Hinv as (t & Hj & _ & Hgt & _).
    split; [intros _; exists j, t; auto|intros _; eexists; reflexivity].
  - destruct Hinv as [_ Hle]. split.
    + intros [? ?]; discriminate.
    + intros (j & t & Hj & Hgt). specialize (Hle _ _ Hj). lra.
Qed.

(** The value of an entry is the first position with the largest ratio. *)
Lemma match_items_entry (src_list tgt_list : list ustr) (threshold : Q) (i j : nat) :
  (0 <= threshold)%Q ->
  dict_get i (match_items src_list tgt_list threshold) = Some j ->
  exists src tgt, src_list !! i = Some src /\ tgt_list !! j = Some tgt /\
    (threshold < ratio src tgt)%Q /\
    (forall j' tgt', tgt_list !! j' = Some tgt' ->
                     (ratio src tgt' <= ratio src tgt)%Q) /\
    (forall j' tgt', j' < j -> tgt_list !! j' = Some tgt' ->
                     (ratio src tgt' < ratio src tgt)%Q).
Proof.
  intros Hthr.
  destruct (match_items_inv src_list tgt_list threshold) as [_ Hget].
  rewrite Hget. destruct (src_list !! i) as [src|]; [|discriminate].
  pose proof (best_match_inv threshold src tgt_list Hthr) as Hinv.
  unfold scan_inv in Hinv. intros Hb. rewrite Hb in Hinv.
  destruct Hinv as (t & Hj & _ & Hgt & Hmax & Hfirst).
  exists src, t. auto.
Qed.

(** C2, for a threshold that is not negative: the mapping has an entry
    for the source position [i] exactly when some target key has a ratio
    against the source key above the threshold; the value of the entry
    is a position whose ratio is the largest of all and is larger than
    that of every earlier position, that is, the first position with
    the largest ratio; and no source position has two entries. *)
Theorem match_items_spec (src_list tgt_list : list ustr) (threshold : Q) :
  (0 <= threshold)%Q ->
  let mapping := match_items src_list tgt_list threshold in
  NoDup mapping.*1 /\
  (forall i j, (i, j) ∈ mapping <-> dict_get i mapping = Some j) /\
  (forall i src, src_list !! i = Some src ->
     (is_Some (dict_get i mapping) <->
      exists j tgt, tgt_list !! j = Some tgt /\ (threshold < ratio src tgt)%Q)) /\
  (forall i j, dict_get i mapping = Some j ->
     exists src tgt, src_list !! i = Some src /\ tgt_list !! j = Some tgt /\
       (threshold < ratio src tgt)%Q /\
       (forall j' tgt', tgt_list !! j' = Some tgt' ->
                        (ratio src tgt' <= ratio src tgt)%Q) /\
       (forall j' tgt', j' < j -> tgt_list !! j' = Some tgt' ->
                        (ratio src tgt' < ratio src tgt)%Q)).
Proof.
  intros Hthr mapping.
  destruct (match_items_inv src_list tgt_list threshold) as [Hnd _].
  fold mapping in Hnd.
  split; [exact Hnd|]. split; [intros i j; apply dict_get_elem, Hnd|]. split.
  - intros i src Hi. apply match_items_has_entry; assumption.
  - intros i j Hj. apply match_items_entry; assumption.
Qed.

Lemma match_items_spec_witness :
  (0 <= default_threshold)%Q /\
  NoDup (match_items [U "ABC"] [U "ABC"; U "XYZ"] default_threshold).*1.
Proof.
  assert (H : (0 <= default_threshold)%Q) by (intros H; discriminate H).
  split; [exact H|].
  exact (proj1 (match_items_spec [U "ABC"] [U "ABC"; U "XYZ"] default_threshold H)).
Defined.

(** C2 as stated, for every threshold, fails below zero: with the
    threshold -1 the ratio 0 of "a" against "b" exceeds the threshold,
    but it does not exceed the initial [best = 0], and the mapping has no
    entry. *)
Lemma match_items_negative_threshold :
  let mapping := match_items [U "a"] [U "b"] (-1) in
  mapping = [] /\
  ~ (is_Some (dict_get 0 mapping) <->
     exists j tgt, [U "b"] !! j = Some tgt /\ (-1 < ratio (U "a") tgt)%Q).
Proof.
  split; [vm_compute; reflexivity|].
  intros [_ H].
  assert (Hs : is_Some (dict_get 0 (match_items [U "a"] [U "b"] (-1)))).
  { apply H. exists 0, (U "b"). split; [reflexivity|]. vm_compute. reflexivity. }
  destruct Hs as [j Hj]. vm_compute in Hj. discriminate.
Qed.

(** ** Empty keys *)

Lemma ratio_empty (t : ustr) :
  (ratio [] t == if bool_decide (t = []) then 1 else 0)%Q.
Proof.
  destruct t as [|c t]; [reflexivity|].
  rewrite bool_decide_eq_false_2 by discriminate.
  unfold ratio, matches, matching_blocks. reflexivity.
Qed.

(** C3: two empty keys have ratio 1, which exceeds the default threshold
    0.3; when the source key at [i] is empty and [j0] is the first
    position of an empty target key, the mapping sends [i] to [j0]. *)
Theorem empty_keys_are_paired (src_list tgt_list : list ustr) (i j0 : nat) :
  src_list !! i = Some [] ->
  tgt_list !! j0 = Some [] ->
  (forall j t, j < j0 -> tgt_list !! j = Some t -> t <> []) ->
  (ratio [] [] == 1)%Q /\ (default_threshold < ratio [] [])%Q /\
  dict_get i (match_items src_list tgt_list default_threshold) = Some j0.
Proof.
  intros Hi Hj0 Hfirst.
  split; [reflexivity|]. split; [reflexivity|].
  assert (Hthr : (0 <= default_threshold)%Q) by (intros H; discriminate H).
  destruct (proj2 (match_items_has_entry src_list tgt_list _ i [] Hthr Hi)) as [j Hj].
  { exists j0, []. split; [exact Hj0|reflexivity]. }
  rewrite Hj. f_equal.
  destruct (match_items_entry src_list tgt_list _ i j Hthr Hj)
    as (src & t & Hsrc & Ht & _ & Hmax & Hlt).
  rewrite Hi in Hsrc. injection Hsrc as <-.
  assert (Ht0 : t = []).
  { specialize (Hmax _ _ Hj0). rewrite (ratio_empty t) in Hmax.
    destruct t; [reflexivity|]. rewrite bool_decide_eq_false_2 in Hmax by discriminate.
    exfalso. revert Hmax. apply Qlt_not_le. reflexivity. }
  subst t. destruct (Nat.lt_trichotomy j j0) as [Hl|[He|Hg]]; [|exact He|].
  - exfalso. exact (Hfirst _ _ Hl Ht eq_refl).
  - specialize (Hlt _ _ Hg Hj0). exfalso. revert Hlt. apply Qlt_irrefl.
Qed.

Lemma empty_keys_are_paired_witness :
  dict_get 0 (match_items [[]] [U "x"; []; []] default_threshold) = Some 1.
Proof.
  refine (proj2 (proj2 (empty_keys_are_paired [[]] [U "x"; []; []] 0 1 eq_refl eq_refl _))).
  intros j t Hj Ht. destruct j as [|j]; [|lia].
  injection Ht as <-. discriminate.
Defined.

(** ** SequenceMatcher: the loop over the windows ends

    The match found in a window lies inside it, so the windows pushed
    are smaller than the window popped, and [len(a) + 1] turns of the
    loop are enough. *)

Section Termination.
Variables a b : ustr.
Variable b2j : gmap N (list nat).

Lemma j2len_prev_le (n : nat) (j2len : gmap nat nat) (j : nat) :
  lens_le n j2len -> j2len_prev j2len j <= n.
Proof.
  intros H. destruct j as [|j]; simpl; [lia|].
  destruct (j2len !! j) as [v|] eqn:E; simpl; [eauto|lia].
Qed.

Lemma scan_row_inside (alo i blo bhi : nat) (j2len : gmap nat nat) :
  alo <= i -> lens_le (i - alo) j2len ->
  forall js newj2len best,
    lens_le (i + 1 - alo) newj2len -> inside alo (i + 1) best ->
    lens_le (i + 1 - alo) (scan_row i blo bhi j2len js newj2len best).1 /\
    inside alo (i + 1) (scan_row i blo bhi j2len js newj2len best).2.
Proof.
  intros Hi Hprev js. induction js as [|j js IH]; intros newj2len best Hnew Hbest.
  - simpl. auto.
  - simpl. destruct (j <? blo); [apply IH; auto|].
    destruct (bhi <=? j); [simpl; auto|].
    pose proof (j2len_prev_le _ _ j Hprev) as Hk.
    apply IH.
    + intros j' v. rewrite lookup_insert. case_decide.
      * intros [= <-]. lia.
      * apply Hnew.
    + destruct (best.2 <? j2len_prev j2len j + 1); [|exact Hbest].
      unfold inside. simpl. lia.
Qed.

Lemma scan_rows_inside (alo ahi blo bhi : nat) :
  inside alo (Nat.max alo ahi) (scan_rows a b2j alo ahi blo bhi).
Proof.
  unfold scan_rows.
  assert (H : forall n,
    let st := foldl (fun (st : gmap nat nat * (nat * nat * nat)) (i : nat) =>
                let js := match a !! i with
                          | Some x => default [] (b2j !! x)
                          | None => []
                          end in
                scan_row i blo bhi st.1 js ∅ st.2)
              (∅, (alo, blo, 0)) (seq alo n) in
    lens_le n st.1 /\ inside alo (alo + n) st.2).
  { induction n as [|n IH].
    - simpl. split; [intros j v Hj; rewrite lookup_empty in Hj; discriminate|].
      unfold inside. simpl. lia.
    - rewrite seq_S, foldl_app. simpl. destruct IH as [IH1 IH2].
      match goal with
      | |- context [scan_row _ _ _ ?j2 ?js _ ?bst] =>
          pose proof (scan_row_inside alo (alo + n) blo bhi j2 ltac:(lia)
                        ltac:(replace (alo + n - alo) with n by lia; exact IH1)
                        js ∅ bst) as Hrow
      end.
      replace (alo + n + 1 - alo) with (S n) in Hrow by lia.
      replace (alo + n + 1) with (alo + S n) in Hrow by lia.
      apply Hrow.
      + intros j v Hj. rewrite lookup_empty in Hj. discriminate.
      + unfold inside in *. lia. }
  destruct (H (ahi - alo)) as [_ Hin]. unfold inside in *. lia.
Qed.

Lemma extend_left_inside (junk : bool) (alo blo hi : nat) :
  forall besti bestj bestsize,
    inside alo hi (besti, bestj, bestsize) ->
    inside alo hi (extend_left a b junk alo blo besti bestj bestsize).
Proof.
  induction besti as [|i' IH]; intros bestj bestsize Hin; simpl; [exact Hin|].
  destruct bestj as [|j']; [exact Hin|].
  destruct (alo <? S i') eqn:Hlt; simpl; [|exact Hin].
  destruct (_ && _ && _); [|exact Hin].
  apply Nat.ltb_lt in Hlt. apply IH. unfold inside in *. simpl in *. lia.
Qed.

Lemma extend_right_le (junk : bool) (ahi bhi besti bestj hi : nat) :
  ahi <= hi ->
  forall gap bestsize,
    besti + bestsize <= hi ->
    bestsize <= extend_right a b junk ahi bhi besti bestj bestsize gap /\
    besti + extend_right a b junk ahi bhi besti bestj bestsize gap <= hi.
Proof.
  intros Hhi. induction gap as [|gap IH]; intros bestsize Hin; simpl; [lia|].
  destruct (besti + bestsize <? ahi) eqn:Hlt; simpl; [|lia].
  destruct (_ && _ && _); [|lia].
  apply Nat.ltb_lt in Hlt. destruct (IH (bestsize + 1)); lia.
Qed.

Lemma grow_inside (junk : bool) (alo ahi blo bhi : nat) (m : nat * nat * nat) :
  inside alo (Nat.max alo ahi) m ->
  inside alo (Nat.max alo ahi) (grow a b junk alo ahi blo bhi m) /\
  m.2 <= (grow a b junk alo ahi blo bhi m).2.
Proof.
  destruct m as [[besti bestj] bestsize]. intros Hin. unfold grow.
  pose proof (extend_left_inside junk alo blo _ besti bestj bestsize Hin) as Hl.
  assert (Hsz : besti + bestsize
                = (extend_left a b junk alo blo besti bestj bestsize).1.1
                  + (extend_left a b junk alo blo besti bestj bestsize).2
                /\ bestsize <= (extend_left a b junk alo blo besti bestj bestsize).2).
  { clear. revert bestj bestsize.
    induction besti as [|i' IH]; intros bestj bestsize; simpl; [lia|].
    destruct bestj as [|j']; [simpl; lia|].
    destruct (_ && _ && _ && _); [|simpl; lia].
    destruct (IH j' (bestsize + 1)). lia. }
  destruct (extend_left a b junk alo blo besti bestj bestsize) as [[i1 j1] s1].
  unfold inside in *. simpl in *.
  destruct (extend_right_le junk ahi bhi i1 j1 (Nat.max alo ahi) ltac:(lia)
              (ahi - (i1 + s1)) s1 ltac:(lia)).
  lia.
Qed.

Lemma find_longest_match_inside (alo ahi blo bhi : nat) :
  inside alo (Nat.max alo ahi) (find_longest_match a b b2j alo ahi blo bhi).
Proof.
  unfold find_longest_match.
  apply grow_inside, grow_inside, scan_rows_inside.
Qed.

Lemma blocks_loop_fuel (fuel : nat) :
  forall queue acc,
    sum_list (map weight queue) <= fuel ->
    is_Some (blocks_loop a b b2j fuel queue acc).
Proof.
  induction fuel as [|fuel IH]; intros queue acc Hq.
  - destruct queue as [|[[[alo ahi] blo] bhi] queue]; [eexists; reflexivity|].
    simpl in Hq. unfold weight in Hq at 1. simpl in Hq. lia.
  - destruct queue as [|[[[alo ahi] blo] bhi] queue]; [eexists; reflexivity|].
    simpl. pose proof (find_longest_match_inside alo ahi blo bhi) as Hin.
    destruct (find_longest_match a b b2j alo ahi blo bhi) as [[i j] k].
    unfold inside in Hin. simpl in Hin, Hq. unfold weight in Hq at 1. simpl in Hq.
    set (rest := sum_list (map weight queue)) in *.
    destruct (Nat.eqb_spec k 0) as [->|Hk]; [apply IH; fold rest; lia|].
    apply IH.
    destruct ((alo <? i) && (blo <? j)) eqn:E1;
      destruct ((i + k <? ahi) && (j + k <? bhi)) eqn:E2;
      cbn [map sum_list]; fold rest; unfold weight; simpl;
      try (apply andb_true_iff in E1 as [E1 _]; apply Nat.ltb_lt in E1);
      try (apply andb_true_iff in E2 as [E2 _]; apply Nat.ltb_lt in E2);
      lia.
Qed.
End Termination.

(** The loop of [get_matching_blocks] ends within the fuel that
    [matching_blocks] gives it, for every pair of sequences. *)
Lemma matching_blocks_total (a b : ustr) :
  blocks_loop a b (chain_b b) (S (length a)) [(0, length a, 0, length b)] []
  = Some (matching_blocks a b).
Proof.
  unfold matching_blocks.
  destruct (blocks_loop_fuel a b (chain_b b) (S (length a))
              [(0, length a, 0, length b)] []) as [l ->]; [|reflexivity].
  simpl. unfold weight. simpl. lia.
Qed.

(** ** Propagation *)

Lemma for_each_inv {S A} (P : S -> Prop) (body : S -> A -> result S) :
  (forall st x st', P st -> body st x = Ok st' -> P st') ->
  forall l st st', P st -> for_each body st l = Ok st' -> P st'.
Proof.
  intros Hbody l. induction l as [|x l IH]; intros st st' HP; simpl.
  - intros [= <-]. exact HP.
  - destruct (body st x) as [st1|e] eqn:Hb; simpl; [|discriminate].
    apply IH. eapply Hbody; eauto.
Qed.

Lemma s2h_body_frame (st st' : frames) (p : nat * nat) :
  s2h_body st p = Ok st' ->
  df_H st' = df_H st /\ df_DR st' = df_DR st /\
  length (df_S_upd st') = length (df_S_upd st) /\
  (forall i, i <> p.1 -> df_S_upd st' !! i = df_S_upd st !! i) /\
  (forall i r', df_S_upd st' !! i = Some r' ->
     exists r, df_S_upd st !! i = Some r /\ others r' = others r /\
       forall c, c <> shoppingmall_url -> c <> unit_total_price ->
                 cell r' c = cell r c).
Proof.
  destruct p as [s_idx h_idx]. unfold s2h_body, H_at. simpl.
  destruct (df_H st !! h_idx) as [h|]; simpl; [|discriminate].
  intros Heq; injection Heq as <-; simpl. split; [reflexivity|]. split; [reflexivity|].
  split; [rewrite !length_alter; reflexivity|]. split.
  - intros i Hi. rewrite !list_lookup_alter_ne by auto. reflexivity.
  - intros i r'. destruct (decide (i = s_idx)) as [->|Hi].
    + rewrite !list_lookup_alter_eq. destruct (df_S_upd st !! s_idx) as [r|]; simpl;
        [|discriminate].
      intros Heq; injection Heq as <-. exists r. split; [reflexivity|]. split; [reflexivity|].
      intros c H1 H2. simpl. rewrite !bool_decide_eq_false_2 by auto. reflexivity.
    + rewrite !list_lookup_alter_ne by auto. intros Hr. exists r'. auto.
Qed.

Lemma dr2h_body_frame (st st' : frames) (p : nat * nat) :
  dr2h_body st p = Ok st' ->
  df_H st' = df_H st /\ df_S_upd st' = df_S_upd st /\
  (forall i, i <> p.1 -> df_DR st' !! i = df_DR st !! i) /\
  (forall h d, df_H st !! p.2 = Some h -> df_DR st !! p.1 = Some d ->
     df_DR st' !! p.1
     = Some {| dr_ref_no := dr_ref_no d; dr_code := h_code h; dr_name := h_name h;
               dr_qty := dr_qty d; dr_barcode := h_barcode h |}).
Proof.
  destruct p as [dr_idx h_idx]. unfold dr2h_body, H_at. simpl.
  destruct (df_H st !! h_idx) as [h|]; simpl; [|discriminate].
  intros Heq; injection Heq as <-; simpl. split; [reflexivity|]. split; [reflexivity|]. split.
  - intros i Hi. rewrite !list_lookup_alter_ne by auto. reflexivity.
  - intros h0 d [= <-] Hd. rewrite !list_lookup_alter_eq, Hd. reflexivity.
Qed.

Lemma propagation_frames :
  (forall st mapping st', for_each s2h_body st mapping = Ok st' ->
     df_H st' = df_H st /\ df_DR st' = df_DR st) /\
  (forall st mapping st', for_each dr2h_body st mapping = Ok st' ->
     df_H st' = df_H st /\ df_S_upd st' = df_S_upd st).
Proof.
  split; intros st mapping st'.
  - apply (for_each_inv (fun s => df_H s = df_H st /\ df_DR s = df_DR st)); [|auto].
    intros s x s' [E1 E2] Hb. apply s2h_body_frame in Hb as (-> & -> & _). auto.
  - apply (for_each_inv (fun s => df_H s = df_H st /\ df_S_upd s = df_S_upd st)); [|auto].
    intros s x s' [E1 E2] Hb. apply dr2h_body_frame in Hb as (-> & -> & _). auto.
Qed.

(** C6: whatever the catalog, the order sheet and the mapping, neither
    propagation loop changes the catalog: after the loop over an
    order-to-catalog mapping, after the loop over a DR-to-catalog mapping
    and after the whole run the frame [df_H] is the one that was loaded;
    the first loop writes rows of the order sheet only, the second rows
    of the DR sheet only. *)
Theorem propagation_keeps_catalog :
  (forall st mapping st', for_each s2h_body st mapping = Ok st' ->
     df_H st' = df_H st /\ df_DR st' = df_DR st) /\
  (forall st mapping st', for_each dr2h_body st mapping = Ok st' ->
     df_H st' = df_H st /\ df_S_upd st' = df_S_upd st) /\
  (forall float_repr H df_S st, run float_repr H df_S = Ok st -> df_H st = H).
Proof.
  destruct propagation_frames as [H1 H2].
  split; [exact H1|]. split; [exact H2|].
  intros float_repr H df_S st. unfold run.
  destruct (for_each s2h_body _ _) as [st1|e] eqn:Hs; simpl; [|discriminate].
  apply H1 in Hs as [Hs _]. simpl in Hs.
  destruct (apply_rules float_repr (df_S_upd st1)) as [upd|e]; simpl; [|discriminate].
  intros Hd. apply H2 in Hd as [Hd _]. simpl in Hd. congruence.
Qed.

Lemma map_alter_same {A B} (f : A -> B) (g : A -> A) (i : nat) (l : list A) :
  (forall x, f (g x) = f x) -> map f (alter g i l) = map f l.
Proof.
  intros Hfg. revert i; induction l as [|x l IH]; intros [|i]; simpl;
    try reflexivity.
  - rewrite Hfg. reflexivity.
  - f_equal. apply IH.
Qed.

Lemma s2h_keeps (c : column) (st st' : frames) (mapping : list (nat * nat)) :
  untouched c ->
  for_each s2h_body st mapping = Ok st' ->
  map (fun r => cell r c) (df_S_upd st') = map (fun r => cell r c) (df_S_upd st).
Proof.
  intros Hc.
  apply (for_each_inv (fun s => map (fun r => cell r c) (df_S_upd s)
                               = map (fun r => cell r c) (df_S_upd st))); [|reflexivity].
  intros s [s_idx h_idx] s' <-. unfold s2h_body, H_at. simpl.
  destruct (df_H s !! h_idx) as [h|]; simpl; [|discriminate].
  intros Heq; injection Heq as <-. simpl.
  rewrite !map_alter_same; [reflexivity| |];
    intros r; simpl; destruct Hc as [-> | ->]; reflexivity.
Qed.

Lemma apply_column_keeps (c c0 : column) (f : pyval -> result pyval)
    (df df' : list OrderRow) :
  c <> c0 -> apply_column c0 f df = Ok df' ->
  map (fun r => cell r c) df' = map (fun r => cell r c) df.
Proof.
  intros Hc. revert df'; induction df as [|r df IH]; intros df'; simpl.
  - intros [= <-]. reflexivity.
  - destruct (f (cell r c0)) as [v|]; simpl; [|discriminate].
    destruct (apply_column c0 f df) as [rest|]; simpl; [|discriminate].
    intros [= <-]. simpl. rewrite bool_decide_eq_false_2 by exact Hc.
    rewrite (IH rest eq_refl). reflexivity.
Qed.

Lemma override_all_keeps (c : column) (r : OrderRow) :
  untouched c -> cell (override_all r) c = cell r c.
Proof.
  intros [-> | ->]; apply (sparse_row_override_cells r).
Qed.

Lemma apply_rules_keeps (float_repr : bool -> positive -> Z -> ustr) (c : column)
    (df df' : list OrderRow) :
  untouched c -> apply_rules float_repr df = Ok df' ->
  map (fun r => cell r c) df' = map (fun r => cell r c) df.
Proof.
  intros Hc. unfold apply_rules. rewrite override_loop_rows. intros Hap.
  apply (apply_column_keeps c) in Hap; [|destruct Hc as [-> | ->]; discriminate].
  rewrite Hap, !map_map. apply map_ext. intros r.
  cbn [cell set_cell]. rewrite bool_decide_eq_false_2
    by (destruct Hc as [-> | ->]; discriminate).
  fold (override_all (set_cell order_no (prefix_order_no float_repr (cell r order_no)) r)).
  rewrite override_all_keeps by exact Hc.
  cbn [cell set_cell]. rewrite bool_decide_eq_false_2
    by (destruct Hc as [-> | ->]; discriminate).
  reflexivity.
Qed.

Lemma dr2h_untouched (i : nat) (mapping : list (nat * nat)) :
  i ∉ mapping.*1 ->
  forall st st', for_each dr2h_body st mapping = Ok st' ->
                 df_DR st' !! i = df_DR st !! i.
Proof.
  induction mapping as [|p mapping IH]; simpl; intros Hi st st'.
  - intros [= <-]. reflexivity.
  - apply not_elem_of_cons in Hi as [Hp Hi].
    destruct (dr2h_body st p) as [st1|] eqn:Hb; simpl; [|discriminate].
    intros Hrest. rewrite (IH Hi _ _ Hrest).
    apply dr2h_body_frame in Hb as (_ & _ & Hother & _). apply Hother. exact Hp.
Qed.

(** The shape of a run that ends: the second loop starts from the DR
    sheet assembled from the final order sheet, with the mapping of its
    names, and the two columns the script never writes are those of the
    order sheet that was read. *)
Lemma run_inv (float_repr : bool -> positive -> Z -> ustr)
    (H : list CatalogRow) (df_S : list OrderRow) (st : frames) :
  run float_repr H df_S = Ok st ->
  for_each dr2h_body
    {| df_H := H; df_S_upd := df_S_upd st; df_DR := assemble_DR (df_S_upd st) |}
    (match_items (dr_names_clean (assemble_DR (df_S_upd st))) (h_names_clean H)
                 default_threshold)
  = Ok st /\
  forall c, untouched c ->
            map (fun r => cell r c) (df_S_upd st) = map (fun r => cell r c) df_S.
Proof.
  unfold run.
  destruct (for_each s2h_body _ _) as [st1|e] eqn:Hs; simpl; [|discriminate].
  destruct (apply_rules float_repr (df_S_upd st1)) as [upd|e] eqn:Hr; simpl;
    [|discriminate].
  pose proof (proj1 propagation_frames _ _ _ Hs) as [HH _]. simpl in HH.
  rewrite HH. intros Hd.
  pose proof (proj2 propagation_frames _ _ _ Hd) as [_ Hupd]. simpl in Hupd.
  rewrite Hupd. split; [exact Hd|].
  intros c Hc. rewrite (apply_rules_keeps _ c _ _ Hc Hr).
  apply (s2h_keeps c _ _ _ Hc Hs).
Qed.

(** C7: after a run, a row of the DR sheet whose position has no entry
    in the DR-to-catalog mapping holds the item name of the order sheet
    as it was read, not cleaned, and its product code and barcode are
    missing. *)
Theorem unmatched_dr_rows_untouched (float_repr : bool -> positive -> Z -> ustr)
    (H : list CatalogRow) (df_S : list OrderRow) (st : frames) (i : nat) (r : OrderRow) :
  run float_repr H df_S = Ok st ->
  df_S !! i = Some r ->
  dict_get i (match_items (dr_names_clean (assemble_DR (df_S_upd st)))
                          (h_names_clean H) default_threshold) = None ->
  exists d, df_DR st !! i = Some d /\
            dr_name d = cell r item_name /\ dr_code d = NaN /\ dr_barcode d = NaN /\
            dr_qty d = cell r item_pcs.
Proof.
  intros Hrun Hi Hnone. apply run_inv in Hrun as [Hd Hkeep].
  apply dict_get_None in Hnone.
  rewrite (dr2h_untouched i _ Hnone _ _ Hd). simpl.
  pose proof (Hkeep item_name (or_introl eq_refl)) as Hn.
  pose proof (Hkeep item_pcs (or_intror eq_refl)) as Hq.
  apply (f_equal (fun l => l !! i)) in Hn, Hq.
  rewrite !list_lookup_fmap, Hi in Hn, Hq. simpl in Hn, Hq.
  unfold assemble_DR. rewrite list_lookup_fmap.
  destruct (df_S_upd st !! i) as [ru|]; simpl in *; [|discriminate].
  injection Hn as Hn. injection Hq as Hq.
  eexists. split; [reflexivity|]. simpl. auto.
Qed.

(** ** The end-to-end example *)

Lemma example_keys :
  clean_text (PStr catalog_name) = U "PremiumRedLipstick" /\
  clean_text (PStr order_item_name) = [] /\
  (ratio [] (U "PremiumRedLipstick") == 0)%Q /\
  match_items [[]] [U "PremiumRedLipstick"] default_threshold = [].
Proof. repeat split; vm_compute; reflexivity. Qed.

Lemma example_run (float_repr : bool -> positive -> Z -> ustr)
    (url price : pyval) (r : OrderRow) (st : frames) :
  let H := [{| h_name := PStr catalog_name; h_url := url; h_price := price;
               h_code := PStr (U "P1"); h_barcode := PStr (U "B1") |}] in
  cell r item_name = PStr order_item_name ->
  cell r item_pcs = PInt 2 ->
  run float_repr H [r] = Ok st ->
  match_items (dr_names_clean (assemble_DR (df_S_upd st))) (h_names_clean H)
              default_threshold = [] /\
  exists ref, df_DR st = [{| dr_ref_no := ref; dr_code := NaN;
                             dr_name := PStr order_item_name;
                             dr_qty := PInt 2; dr_barcode := NaN |}].
Proof.
  intros H Hname Hpcs Hrun.
  destruct example_keys as (Hck & Hcn & _ & Hmatch).
  apply run_inv in Hrun as [Hd Hkeep].
  pose proof (Hkeep item_name (or_introl eq_refl)) as Hn.
  pose proof (Hkeep item_pcs (or_intror eq_refl)) as Hq.
  destruct (df_S_upd st) as [|ru [|ru' upd]]; try discriminate.
  simpl in Hn, Hq. injection Hn as Hn. injection Hq as Hq.
  rewrite Hname in Hn. rewrite Hpcs in Hq.
  assert (Hmap : match_items (dr_names_clean (assemble_DR [ru])) (h_names_clean H)
                             default_threshold = []).
  { unfold dr_names_clean, assemble_DR, h_names_clean, H. cbn [map dr_name h_name].
    rewrite Hn. change (fillna_empty (PStr order_item_name)) with (PStr order_item_name).
    change (fillna_empty (PStr catalog_name)) with (PStr catalog_name).
    rewrite Hck, Hcn. exact Hmatch. }
  split; [exact Hmap|].
  rewrite Hmap in Hd. simpl in Hd. injection Hd as <-. simpl.
  rewrite Hn, Hq. eexists. reflexivity.
Qed.

(** C1 as the script behaves: the pattern [【.*?】] removes the whole
    order item name of the example, so its key is the empty string; the
    key of the catalog row is "PremiumRedLipstick"; the ratio of the
    empty key against it is 0, which is not above the threshold 0.3, and
    the DR pass maps nothing.  Whatever the other cells of the catalog
    row and of the order row are, when the run ends the single DR row
    holds the item name of the order as it was read, the quantity 2 and
    no product code and no barcode. *)
Theorem end_to_end_example (float_repr : bool -> positive -> Z -> ustr)
    (url price : pyval) (r : OrderRow) (st : frames) :
  let H := [{| h_name := PStr catalog_name; h_url := url; h_price := price;
               h_code := PStr (U "P1"); h_barcode := PStr (U "B1") |}] in
  cell r item_name = PStr order_item_name ->
  cell r item_pcs = PInt 2 ->
  run float_repr H [r] = Ok st ->
  clean_text (PStr order_item_name) = [] /\
  clean_text (PStr catalog_name) = U "PremiumRedLipstick" /\
  (ratio (clean_text (PStr order_item_name)) (clean_text (PStr catalog_name)) == 0)%Q /\
  ~ (default_threshold
     < ratio (clean_text (PStr order_item_name)) (clean_text (PStr catalog_name)))%Q /\
  match_items (dr_names_clean (assemble_DR (df_S_upd st))) (h_names_clean H)
              default_threshold = [] /\
  exists ref, df_DR st = [{| dr_ref_no := ref; dr_code := NaN;
                             dr_name := PStr order_item_name;
                             dr_qty := PInt 2; dr_barcode := NaN |}].
Proof.
  intros H Hname Hpcs Hrun.
  destruct example_keys as (Hck & Hcn & Hratio & _).
  split; [exact Hcn|]. split; [exact Hck|].
  rewrite Hck, Hcn. split; [exact Hratio|].
  split; [rewrite Hratio; intros Hlt; discriminate Hlt|].
  exact (example_run float_repr url price r st Hname Hpcs Hrun).
Qed.

Lemma end_to_end_example_witness :
  exists st, run (fun _ _ _ => []) example_H [example_row] = Ok st /\
    match_items (dr_names_clean (assemble_DR (df_S_upd st))) (h_names_clean example_H)
                default_threshold = [] /\
    exists ref, df_DR st = [{| dr_ref_no := ref; dr_code := NaN;
                               dr_name := PStr order_item_name;
                               dr_qty := PInt 2; dr_barcode := NaN |}].
Proof.
  destruct (run (fun _ _ _ => []) example_H [example_row]) as [st|e] eqn:Hrun.
  - exists st. split; [reflexivity|].
    exact (proj2 (proj2 (proj2 (proj2
             (end_to_end_example (fun _ _ _ => []) NaN NaN example_row st
                eq_refl eq_refl Hrun))))).
  - exfalso. vm_compute in Hrun. discriminate Hrun.
Defined.

(** C1 as stated fails: on the catalog and the order row of the example
    the run ends, the DR pass maps nothing, not [{0: 0}], and the DR row
    has no product code and no barcode and keeps the raw item name. *)
Lemma end_to_end_example_no_match :
  match_items [clean_text (PStr order_item_name)] [clean_text (PStr catalog_name)]
              default_threshold = [] /\
  match_items [clean_text (PStr order_item_name)] [clean_text (PStr catalog_name)]
              default_threshold <> [(0, 0)] /\
  match run (fun _ _ _ => []) example_H [example_row] with
  | Ok st =>
      df_DR st = [{| dr_ref_no := PStr (U "86nan"); dr_code := NaN;
                     dr_name := PStr order_item_name;
                     dr_qty := PInt 2; dr_barcode := NaN |}] /\
      (dr_code <$> df_DR st) <> [PStr (U "P1")] /\
      (dr_barcode <$> df_DR st) <> [PStr (U "B1")] /\
      (dr_name <$> df_DR st) <> [PStr catalog_name]
  | Raise _ => False
  end.
Proof.
  split; [vm_compute; reflexivity|]. split; [vm_compute; discriminate|].
  vm_compute. repeat split; discriminate.
Qed.

Lemma propagation_keeps_catalog_witness :
  match_items (s_names_clean example_orders) (h_names_clean example_catalog)
              default_threshold = [(1, 0)] /\
  exists st, run (fun _ _ _ => []) example_catalog example_orders = Ok st /\
    df_H st = example_catalog /\
    exists ru d, df_S_upd st !! 1 = Some ru /\ df_DR st !! 1 = Some d /\
      cell ru shoppingmall_url = PStr (U "https://shop.example/p1") /\
      dr_code d = PStr (U "P1").
Proof.
  split; [vm_compute; reflexivity|].
  destruct (run (fun _ _ _ => []) example_catalog example_orders) as [st|e] eqn:Hrun.
  - exists st. split; [reflexivity|].
    split; [exact (proj2 (proj2 propagation_keeps_catalog) _ _ _ _ Hrun)|].
    vm_compute in Hrun. injection Hrun as <-.
    eexists _, _. split; [reflexivity|]. split; [reflexivity|].
    split; vm_compute; reflexivity.
  - exfalso. vm_compute in Hrun. discriminate Hrun.
Defined.

Lemma unmatched_dr_rows_untouched_witness :
  exists st, run (fun _ _ _ => []) example_H [example_row] = Ok st /\
    exists d, df_DR st !! 0 = Some d /\
              dr_name d = PStr order_item_name /\ dr_code d = NaN /\
              dr_barcode d = NaN /\ dr_qty d = PInt 2.
Proof.
  destruct (run (fun _ _ _ => []) example_H [example_row]) as [st|e] eqn:Hrun.
  - exists st. split; [reflexivity|].
    apply (unmatched_dr_rows_untouched (fun _ _ _ => []) example_H [example_row]
             st 0 example_row Hrun eq_refl).
    pose proof (proj1 (example_run (fun _ _ _ => []) NaN NaN example_row st
                         eq_refl eq_refl Hrun)) as Hm.
    unfold example_H. rewrite Hm. reflexivity.
  - exfalso. vm_compute in Hrun. discriminate Hrun.
Defined.

(** ** The shape of what format_postal returns *)

Lemma fullmatch_shape (t : ustr) :
  re_fullmatch postal_re t = true -> postal_shape t.
Proof.
  unfold re_fullmatch. intros Hm. apply bool_decide_eq_true in Hm.
  destruct t as [|c0 [|c1 [|c2 [|c3 [|c4 [|c5 [|c6 [|c7 t]]]]]]]];
    unfold postal_re in Hm; cbn [exactly replicate app rm cmatch] in Hm;
    repeat match type of Hm with
           | context [if ?c then _ else _] =>
               let E := fresh "E" in destruct c eqn:E; cbn [fmap option_fmap option_map] in Hm
           end;
    try (destruct Hm as [? Hm]; discriminate Hm).
  apply bool_decide_eq_true in E7. subst t.
  apply N.eqb_eq in E2. subst c3.
  exists [c0; c1; c2], [c4; c5; c6; c7]. repeat split.
  unfold is_digit. cbn [app forallb]. rewrite E, E0, E1, E3, E4, E5, E6. reflexivity.
Qed.

Lemma digits_shape (digits : ustr) :
  isdigit digits && (length digits =? 7) = true ->
  postal_shape (take 3 digits ++ [0x2D%N] ++ drop 3 digits).
Proof.
  intros Hd. apply andb_true_iff in Hd as [Hd Hl].
  apply Nat.eqb_eq in Hl. unfold isdigit in Hd. apply andb_true_iff in Hd as [_ Hd].
  exists (take 3 digits), (drop 3 digits). split; [reflexivity|].
  rewrite length_take, length_drop, take_drop. repeat split; try lia. exact Hd.
Qed.

(** X3: when [format_postal] returns, it returns the text for "no postal
    code" or three digits, a hyphen and four digits, a digit being any
    character that [str.isdigit] accepts. *)
Lemma format_postal_shape (postal : pyval) (s : ustr) :
  format_postal postal = Ok s -> s = no_postal_code \/ postal_shape s.
Proof.
  unfold format_postal. destruct (isna postal); [intros [= <-]; left; reflexivity|].
  destruct (already_formatted postal) as [t|] eqn:Hf.
  - intros [= <-]. right. destruct postal as [ | | | |s0]; try discriminate.
    simpl in Hf. destruct (re_fullmatch postal_re (strip s0)) eqn:Hm; [|discriminate].
    injection Hf as <-. apply fullmatch_shape, Hm.
  - assert (Hstr : forall s0,
        (if isdigit (zfill 7 s0) && (length (zfill 7 s0) =? 7)
         then Ok (take 3 (zfill 7 s0) ++ [0x2D%N] ++ drop 3 (zfill 7 s0))
         else Ok no_postal_code) = Ok s ->
        s = no_postal_code \/ postal_shape s).
    { intros s0. destruct (isdigit (zfill 7 s0) && (length (zfill 7 s0) =? 7)) eqn:Hd;
        intros [= <-]; [right; apply digits_shape, Hd|left; reflexivity]. }
    destruct postal as [ |b|z|f|s0]; simpl.
    + intros [= <-]. left; reflexivity.
    + destruct (str_int (if b then 1 else 0))%Z as [s0|e]; simpl;
        [apply Hstr|discriminate].
    + destruct (str_int z) as [s0|e]; simpl; [apply Hstr|discriminate].
    + destruct (int_of_float f) as [z|e]; simpl; [|discriminate].
      destruct (str_int z) as [s0|e]; simpl; [apply Hstr|discriminate].
    + apply Hstr.
Qed.

(** * Further properties of the script *)

(** ** What clean_text leaves *)

Lemma re_sub_one (k : cclass) (s : ustr) :
  re_sub [One k] s = filter (fun c => cmatch k c = false) s.
Proof.
  unfold re_sub. induction s as [|x s IH]; [reflexivity|].
  rewrite filter_cons. cbn [sub_loop].
  assert (Hm : match_here [One k] false (x :: s)
               = if cmatch k x then Some 1 else None).
  { unfold match_here. cbn [rm]. destruct (cmatch k x); reflexivity. }
  rewrite Hm. destruct (cmatch k x) eqn:E.
  - rewrite decide_False by discriminate. exact IH.
  - rewrite decide_True by reflexivity. f_equal. exact IH.
Qed.

Lemma sub_loop_skip (p : regex) (s : ustr) :
  forall k, sub_loop p k s = sub_loop p 0 (drop k s).
Proof.
  induction s as [|x s IH]; intros [|k]; try reflexivity.
  simpl. apply IH.
Qed.

Lemma greedy_spaces (ma : bool) (s : ustr) :
  exists n, rm [GreedyStar CSpace] (fun moved _ => moved || negb ma) true s = Some n /\
            n <= length s /\ Forall (fun c => is_space c = true) (take n s).
Proof.
  induction s as [|x s IH].
  - exists 0. repeat split; [simpl; lia|constructor].
  - change (rm [GreedyStar CSpace] (fun moved _ => moved || negb ma) true (x :: s))
      with (if is_space x
            then match rm [GreedyStar CSpace] (fun moved _ => moved || negb ma) true s with
                 | Some n => Some (S n)
                 | None => Some 0
                 end
            else Some 0).
    destruct (is_space x) eqn:E.
    + destruct IH as (n & -> & Hn & Hall). exists (S n).
      repeat split; [simpl; lia|]. simpl. constructor; assumption.
    + exists 0. repeat split; [simpl; lia|constructor].
Qed.

Lemma filter_spaces_drop (n : nat) (s : ustr) :
  Forall (fun c => is_space c = true) (take n s) ->
  filter (fun c => is_space c = false) (drop n s)
  = filter (fun c => is_space c = false) s.
Proof.
  intros Hall. rewrite <- (take_drop n s) at 2. rewrite filter_app.
  assert (filter (fun c => is_space c = false) (take n s) = []) as ->; [|reflexivity].
  induction Hall as [|c l Hc _ IH]; [reflexivity|].
  rewrite filter_cons, decide_False by congruence. exact IH.
Qed.

Lemma re_sub_spaces (s : ustr) :
  re_sub (at_least 1 CSpace) s = filter (fun c => is_space c = false) s.
Proof.
  unfold re_sub. remember (length s) as m eqn:Hm. revert s Hm.
  induction m as [m IH] using lt_wf_ind. intros [|x s] Hm; [reflexivity|].
  rewrite filter_cons. cbn [sub_loop].
  assert (Hh : match_here (at_least 1 CSpace) false (x :: s)
               = if is_space x
                 then S <$> rm [GreedyStar CSpace] (fun moved _ => moved || negb false) true s
                 else None) by reflexivity.
  rewrite Hh. destruct (is_space x) eqn:E.
  - rewrite decide_False by congruence.
    destruct (greedy_spaces false s) as (n & -> & Hn & Hall).
    cbn [fmap option_fmap option_map].
    rewrite sub_loop_skip, <- (filter_spaces_drop n s Hall).
    apply (IH (length (drop n s))); [|reflexivity].
    rewrite length_drop. simpl in Hm. lia.
  - rewrite decide_True by reflexivity. f_equal.
    apply (IH (length s)); [simpl in Hm; lia|reflexivity].
Qed.

(** X1: whatever the input, the key that [clean_text] returns holds no
    whitespace character, none of the characters [[], []], [【], [】] and
    [#], and no slash. *)
Theorem clean_text_alphabet (text : pyval) :
  Forall (fun c => is_space c = false /\ (c ∉ U "[]【】#") /\ c <> 0x2F%N)
         (clean_text text).
Proof.
  destruct text as [ | | | |s]; try constructor.
  apply Forall_forall. intros c Hc. simpl in Hc. unfold clean_str in Hc.
  rewrite re_sub_spaces in Hc. apply list_elem_of_filter in Hc as [Hsp Hc].
  apply strip_elem in Hc. split; [exact Hsp|]. split.
  - change patterns with (firstn 7 patterns ++ [[One (COneOf (U "[]【】#"))]; at_least 2 CSpace])
      in Hc.
    rewrite fold_left_app in Hc. cbn [fold_left] in Hc.
    apply re_sub_elem in Hc. rewrite re_sub_one in Hc.
    apply list_elem_of_filter in Hc as [Hcl _]. cbn [cmatch] in Hcl.
    intros Hin. apply not_true_iff_false in Hcl. apply Hcl.
    apply existsb_exists. exists c. split; [|apply N.eqb_refl].
    apply list_elem_of_In. exact Hin.
  - exact (fold_after_slash (firstn 2 patterns) (skipn 3 patterns) s c Hc).
Qed.

Lemma sub_loop_sublist (p : regex) (s : ustr) :
  forall k, sub_loop p k s `sublist_of` s.
Proof.
  induction s as [|x s IH]; intros k; simpl; [constructor|].
  destruct k as [|k]; [|apply sublist_cons, IH].
  destruct (match_here p false (x :: s)) as [[|n]|].
  - destruct (match_here p true (x :: s)) as [[|n]|];
      first [apply sublist_skip, IH | apply sublist_cons, IH].
  - apply sublist_cons, IH.
  - apply sublist_skip, IH.
Qed.

Lemma lstrip_split (s : ustr) :
  exists pre, s = pre ++ lstrip s /\ Forall (fun c => is_space c = true) pre.
Proof.
  induction s as [|x s (pre & Hs & Hpre)]; simpl.
  - exists []. split; [reflexivity|constructor].
  - destruct (is_space x) eqn:E.
    + exists (x :: pre). split; [simpl; congruence|constructor; assumption].
    + exists []. split; [reflexivity|constructor].
Qed.

(** [strip] cuts a run of whitespace at each end. *)
Lemma strip_split (s : ustr) :
  exists l r, s = l ++ strip s ++ r /\
              Forall (fun c => is_space c = true) l /\
              Forall (fun c => is_space c = true) r.
Proof.
  destruct (lstrip_split s) as (l & Hs & Hl).
  destruct (lstrip_split (rev (lstrip s))) as (r & Hr & Hrs).
  exists l, (rev r). split; [|split; [exact Hl|]].
  - unfold strip, rstrip. rewrite <- rev_app_distr, <- Hr, rev_involutive. exact Hs.
  - apply Forall_forall. intros c Hc. rewrite Forall_forall in Hrs. apply Hrs.
    apply list_elem_of_In. apply list_elem_of_In, in_rev in Hc. exact Hc.
Qed.

Lemma fold_re_sub_sublist (ps : list regex) (s : ustr) :
  fold_left (fun t pat => re_sub pat t) ps s `sublist_of` s.
Proof.
  revert s; induction ps as [|p ps IH]; intros s; simpl; [reflexivity|].
  etransitivity; [apply IH|apply sub_loop_sublist].
Qed.

(** X2: [clean_text] only deletes: its output is the input text with
    some characters left out, in the same order, so it is never longer
    than the input. *)
Theorem clean_text_deletes_only (s : ustr) :
  clean_text (PStr s) `sublist_of` s /\ length (clean_text (PStr s)) <= length s.
Proof.
  assert (H : clean_text (PStr s) `sublist_of` s).
  { simpl. unfold clean_str.
    etransitivity; [apply sub_loop_sublist|].
    destruct (strip_split (fold_left (fun t pat => re_sub pat t) patterns s))
      as (l & r & Hs & _).
    etransitivity; [|apply fold_re_sub_sublist].
    rewrite Hs at 2. apply sublist_inserts_l, sublist_inserts_r. reflexivity. }
  split; [exact H|apply sublist_length, H].
Qed.

(** ** clean_text on a text without the other noise *)

Lemma re_sub_no_start (p : regex) (k : cclass) (p' : regex) (s : ustr) :
  p = One k :: p' ->
  Forall (fun c => cmatch k c = false) s -> re_sub p s = s.
Proof.
  intros -> Hs. unfold re_sub. induction Hs as [|x s Hx _ IH]; [reflexivity|].
  cbn [sub_loop].
  assert (Hm : match_here (One k :: p') false (x :: s) = None).
  { unfold match_here. cbn [rm]. rewrite Hx. reflexivity. }
  rewrite Hm, IH. reflexivity.
Qed.

Lemma filter_all_spaces (l : ustr) :
  Forall (fun c => is_space c = true) l -> filter (fun c => is_space c = false) l = [].
Proof.
  induction 1 as [|c l Hc _ IH]; [reflexivity|].
  rewrite filter_cons, decide_False by congruence. exact IH.
Qed.

Lemma filter_space_strip (t : ustr) :
  filter (fun c => is_space c = false) (strip t) = filter (fun c => is_space c = false) t.
Proof.
  destruct (strip_split t) as (l & r & Ht & Hl & Hr). rewrite Ht at 2.
  rewrite !filter_app, (filter_all_spaces l Hl), (filter_all_spaces r Hr), app_nil_r.
  reflexivity.
Qed.

Lemma spaces2_match (ma : bool) (s : ustr) (n : nat) :
  match_here (at_least 2 CSpace) ma s = Some n ->
  Forall (fun c => is_space c = true) (take n s).
Proof.
  destruct s as [|x1 [|x2 s]].
  - discriminate.
  - assert (Hh : match_here (at_least 2 CSpace) ma [x1] = None)
      by (unfold match_here; simpl; destruct (is_space x1); reflexivity).
    rewrite Hh. discriminate.
  - assert (Hh : match_here (at_least 2 CSpace) ma (x1 :: x2 :: s)
                 = if is_space x1
                   then S <$> (if is_space x2
                               then S <$> rm [GreedyStar CSpace]
                                             (fun moved _ => moved || negb ma) true s
                               else None)
                   else None) by reflexivity.
    rewrite Hh. destruct (is_space x1) eqn:E1; [|discriminate].
    destruct (is_space x2) eqn:E2; [|discriminate].
    destruct (greedy_spaces ma s) as (n' & -> & _ & Hall).
    cbn [fmap option_fmap option_map]. intros [= <-].
    cbn [take]. constructor; [exact E1|]. constructor; [exact E2|exact Hall].
Qed.

Lemma sub_loop_spaces2 (s : ustr) :
  forall k, Forall (fun c => is_space c = true) (take k s) ->
    filter (fun c => is_space c = false) (sub_loop (at_least 2 CSpace) k s)
    = filter (fun c => is_space c = false) s.
Proof.
  induction s as [|x s IH]; intros k Hk; [destruct k; reflexivity|].
  assert (Hkeep : filter (fun c => is_space c = false)
                         (x :: sub_loop (at_least 2 CSpace) 0 s)
                  = filter (fun c => is_space c = false) (x :: s)).
  { rewrite !filter_cons, (IH 0) by constructor. reflexivity. }
  assert (Hdrop : forall n, Forall (fun c => is_space c = true) (take (S n) (x :: s)) ->
            filter (fun c => is_space c = false) (sub_loop (at_least 2 CSpace) n s)
            = filter (fun c => is_space c = false) (x :: s)).
  { intros n Hn. cbn [take] in Hn. inversion Hn as [|c l Hx Hrest]; subst.
    rewrite (IH n Hrest), filter_cons, decide_False by congruence. reflexivity. }
  cbn [sub_loop]. destruct k as [|k]; [|exact (Hdrop k Hk)].
  destruct (match_here (at_least 2 CSpace) false (x :: s)) as [[|n]|] eqn:E.
  - destruct (match_here (at_least 2 CSpace) true (x :: s)) as [[|n]|] eqn:E2;
      [exact Hkeep| |exact Hkeep].
    apply Hdrop. exact (spaces2_match _ _ _ E2).
  - apply Hdrop. exact (spaces2_match _ _ _ E).
  - exact Hkeep.
Qed.

Lemma plain_char (c : N) :
  c ∉ U "#【】[]韓口リア" ->
  cmatch (CLit 0x23) c = false /\ cmatch (CLit 0x3010) c = false /\
  cmatch (CLit 0x97D3) c = false /\ cmatch (CLit 0x53E3) c = false /\
  cmatch (CLit 0x30EA) c = false /\ cmatch (CLit 0x30A2) c = false /\
  cmatch (COneOf (U "[]【】#")) c = false.
Proof.
  intros Hc.
  assert (Hne : forall k : N, k ∈ U "#【】[]韓口リア" -> (c =? k)%N = false).
  { intros k Hk. apply N.eqb_neq. intros ->. exact (Hc Hk). }
  assert (Hin : forall k : N, In k (U "#【】[]韓口リア") -> (c =? k)%N = false).
  { intros k Hk. apply Hne, list_elem_of_In, Hk. }
  cbn [cmatch].
  change (U "[]【】#") with [0x5B; 0x5D; 0x3010; 0x3011; 0x23]%N. cbn [existsb].
  rewrite !Hin by (vm_compute; tauto). repeat split; reflexivity.
Qed.

Lemma clean_str_plain (s : ustr) :
  Forall (fun c => c ∉ U "#【】[]韓口リア") s ->
  clean_str s
  = filter (fun c => is_space c = false) (filter (fun c => c <> 0x2F%N) s).
Proof.
  intros Hs. unfold clean_str. rewrite re_sub_spaces, filter_space_strip.
  change patterns with (firstn 8 patterns ++ [at_least 2 CSpace]).
  rewrite fold_left_app. cbn [fold_left]. unfold re_sub at 1.
  rewrite sub_loop_spaces2 by constructor. f_equal.
  assert (Hstart : forall (i : nat) k (t : ustr),
            nth i patterns [] = One k :: tail (nth i patterns []) ->
            Forall (fun c => c ∉ U "#【】[]韓口リア") t ->
            (forall c, c ∉ U "#【】[]韓口リア" -> cmatch k c = false) ->
            re_sub (nth i patterns []) t = t).
  { intros i k t Hi Ht Hk. apply (re_sub_no_start _ k _ t Hi).
    eapply Forall_impl; [exact Ht|]. exact Hk. }
  change (firstn 8 patterns)
    with [nth 0 patterns []; nth 1 patterns []; nth 2 patterns []; nth 3 patterns [];
          nth 4 patterns []; nth 5 patterns []; nth 6 patterns []; nth 7 patterns []].
  cbn [fold_left].
  rewrite (Hstart 0 (CLit 0x23) s eq_refl Hs) by (intros c Hc; apply (plain_char c Hc)).
  rewrite (Hstart 1 (CLit 0x3010) s eq_refl Hs) by (intros c Hc; apply (plain_char c Hc)).
  change (nth 2 patterns []) with [One (CLit 0x2F); LazyStar CDot].
  rewrite re_sub_slash.
  assert (Ht : Forall (fun c => c ∉ U "#【】[]韓口リア") (filter (fun c => c <> 0x2F%N) s)).
  { apply Forall_forall. intros c Hc. apply list_elem_of_filter in Hc as [_ Hc].
    rewrite Forall_forall in Hs. exact (Hs c Hc). }
  rewrite (Hstart 3 (CLit 0x97D3) _ eq_refl Ht) by (intros c Hc; apply (plain_char c Hc)).
  rewrite (Hstart 4 (CLit 0x53E3) _ eq_refl Ht) by (intros c Hc; apply (plain_char c Hc)).
  rewrite (Hstart 5 (CLit 0x30EA) _ eq_refl Ht) by (intros c Hc; apply (plain_char c Hc)).
  rewrite (Hstart 6 (CLit 0x30A2) _ eq_refl Ht) by (intros c Hc; apply (plain_char c Hc)).
  rewrite (Hstart 7 (COneOf (U "[]【】#")) _ eq_refl Ht)
    by (intros c Hc; apply (plain_char c Hc)).
  reflexivity.
Qed.

(** C10: the pattern [/.*?] matches the slash and nothing after it, so
    substituting it removes exactly the slashes of the text; no output
    of [clean_text] contains a slash; and on a text that none of the
    other patterns touches (it has none of [#], [【], [】], [[], []] and
    none of the first characters 韓, 口, リ, ア of the four words)
    [clean_text] returns the text without its slashes and its
    whitespace: what follows a slash is kept. *)
Theorem clean_text_removes_slashes :
  nth 2 patterns [] = [One (CLit 0x2F); LazyStar CDot] /\
  (forall s : ustr, re_sub (nth 2 patterns []) s = filter (fun c => c <> 0x2F%N) s) /\
  (forall text : pyval, 0x2F%N ∉ clean_text text) /\
  (forall s : ustr,
     Forall (fun c => c ∉ U "#【】[]韓口リア") s ->
     clean_text (PStr s)
     = filter (fun c => is_space c = false) (filter (fun c => c <> 0x2F%N) s)).
Proof.
  split; [reflexivity|]. split; [intros s; apply re_sub_slash|].
  split; [|intros s Hs; exact (clean_str_plain s Hs)].
  intros [ | | |f|s]; simpl; try apply not_elem_of_nil.
  unfold clean_str. intros H.
  apply re_sub_elem, strip_elem in H.
  apply (fold_after_slash (firstn 2 patterns) (skipn 3 patterns)) in H.
  apply H. reflexivity.
Qed.

Lemma clean_text_removes_slashes_witness :
  clean_text (PStr (U "a/b c")) = U "abc".
Proof.
  refine (eq_trans (proj2 (proj2 (proj2 clean_text_removes_slashes)) (U "a/b c") _) _).
  - vm_compute. repeat constructor;
      (intros H; repeat (apply elem_of_cons in H as [H|H]; [discriminate H|]);
       apply elem_of_nil in H; exact H).
  - vm_compute. reflexivity.
Defined.

(** ** format_postal on codes, on signs and on its own output *)

Lemma format_postal_shape_witness :
  U "012-3456" = no_postal_code \/ postal_shape (U "012-3456").
Proof.
  assert (H : format_postal (PInt 123456) = Ok (U "012-3456"))
    by (vm_compute; reflexivity).
  exact (format_postal_shape (PInt 123456) (U "012-3456") H).
Defined.

Lemma in_ranges_Exists (rs : list (N * N)) (c : N) :
  in_ranges rs c = true <-> Exists (fun r => (r.1 <= c <= r.2)%N) rs.
Proof.
  unfold in_ranges. rewrite existsb_exists, Exists_exists. split.
  - intros (r & Hr & Hc). exists r. split; [apply list_elem_of_In, Hr|].
    apply andb_true_iff in Hc as [H1 H2].
    apply N.leb_le in H1, H2. auto.
  - intros (r & Hr & H1 & H2). exists r. split; [apply list_elem_of_In, Hr|].
    apply andb_true_iff. split; apply N.leb_le; assumption.
Qed.

Lemma decimal_not_space (c : N) : is_decimal c = true -> is_space c = false.
Proof.
  intros Hd. apply not_true_iff_false. intros Hs.
  apply in_ranges_Exists in Hd, Hs.
  unfold whitespace_ranges in Hs. unfold decimal_ranges in Hd.
  repeat (rewrite Exists_cons in Hs). rewrite Exists_nil in Hs.
  cbn [fst snd] in Hs.
  assert (Hc : (c <= 0x3000)%N) by lia.
  repeat (rewrite Exists_cons in Hd). rewrite Exists_nil in Hd.
  cbn [fst snd] in Hd. lia.
Qed.

Lemma lstrip_spaces (l t : ustr) :
  Forall (fun c => is_space c = true) l -> lstrip (l ++ t) = lstrip t.
Proof.
  induction 1 as [|c l Hc _ IH]; [reflexivity|]. simpl. rewrite Hc. exact IH.
Qed.

(** [strip] gives back a text that begins and ends with characters that
    are not whitespace, whatever whitespace surrounds it. *)
Lemma strip_core (l r : ustr) (x y : N) (mid : ustr) :
  Forall (fun c => is_space c = true) l ->
  Forall (fun c => is_space c = true) r ->
  is_space x = false -> is_space y = false ->
  strip (l ++ (x :: mid ++ [y]) ++ r) = x :: mid ++ [y].
Proof.
  intros Hl Hr Hx Hy.
  assert (Hrc : rev (x :: mid ++ [y]) = y :: rev mid ++ [x]).
  { simpl. rewrite rev_app_distr. reflexivity. }
  assert (Hrr : Forall (fun c => is_space c = true) (rev r)).
  { apply Forall_forall. intros c Hc. rewrite Forall_forall in Hr. apply Hr.
    apply list_elem_of_In. apply list_elem_of_In, in_rev in Hc. exact Hc. }
  assert (Hls : lstrip ((x :: mid ++ [y]) ++ r) = (x :: mid ++ [y]) ++ r).
  { simpl. rewrite Hx. reflexivity. }
  unfold strip, rstrip.
  rewrite lstrip_spaces by exact Hl. rewrite Hls.
  rewrite rev_app_distr, lstrip_spaces by exact Hrr. rewrite Hrc.
  assert (Hly : lstrip (y :: rev mid ++ [x]) = y :: rev mid ++ [x]).
  { simpl. rewrite Hy. reflexivity. }
  rewrite Hly, <- Hrc. apply rev_involutive.
Qed.

(** X4: a code of three decimal digits, a hyphen and four decimal digits
    comes back as it is, without the whitespace around it; and the text
    for "no postal code" comes back as it is. *)
Theorem format_postal_keeps_codes (l r a b : ustr) :
  Forall (fun c => is_space c = true) l ->
  Forall (fun c => is_space c = true) r ->
  length a = 3 -> length b = 4 ->
  Forall (fun c => is_decimal c = true) (a ++ b) ->
  format_postal (PStr (l ++ (a ++ [0x2D%N] ++ b) ++ r)) = Ok (a ++ [0x2D%N] ++ b) /\
  format_postal (PStr no_postal_code) = Ok no_postal_code.
Proof.
  intros Hl Hr Ha Hb Hd. split; [|vm_compute; reflexivity].
  destruct a as [|a0 [|a1 [|a2 [|]]]]; try discriminate.
  destruct b as [|b0 [|b1 [|b2 [|b3 [|]]]]]; try discriminate.
  cbn [app] in Hd.
  repeat match goal with
         | H : Forall _ (_ :: _) |- _ => apply Forall_cons in H as [? H]
         end.
  assert (Hs : strip (l ++ ([a0; a1; a2] ++ [0x2D%N] ++ [b0; b1; b2; b3]) ++ r)
               = [a0; a1; a2; 0x2D%N; b0; b1; b2; b3]).
  { apply (strip_core l r a0 b3 [a1; a2; 0x2D%N; b0; b1; b2]); auto using decimal_not_space. }
  unfold format_postal. cbn [isna already_formatted]. rewrite Hs.
  assert (Hm : re_fullmatch postal_re [a0; a1; a2; 0x2D%N; b0; b1; b2; b3] = true).
  { unfold re_fullmatch, postal_re. cbn [exactly replicate app rm cmatch].
    repeat match goal with H : is_decimal _ = true |- _ => rewrite H; clear H end.
    reflexivity. }
  rewrite Hm. reflexivity.
Qed.

Lemma format_postal_keeps_codes_witness :
  format_postal (PStr (U " 123-4567" ++ [0xA%N])) = Ok (U "123-4567").
Proof.
  refine (proj1 (format_postal_keeps_codes (U " ") [0xA%N] (U "123") (U "4567")
                   _ _ eq_refl eq_refl _)).
  - repeat constructor.
  - repeat constructor.
  - repeat constructor.
Defined.

Lemma str_of_int_neg (p : positive) :
  exists rest, str_of_int (Z.neg p) = 0x2D%N :: rest.
Proof. eexists. unfold str_of_int. simpl. reflexivity. Qed.

(** X5: a negative integer never gives a code.  When it has more digits
    than [str] converts, [str(int(postal))] raises [ValueError];
    otherwise its text begins with the minus sign, [zfill] keeps the
    sign in front, [isdigit] fails and the result is the text for "no
    postal code". *)
Theorem format_postal_negative (z : Z) :
  (z < 0)%Z ->
  format_postal (PInt z)
  = if max_str_digits <? length (str_of_int (- z)) then Raise ValueError
    else Ok no_postal_code.
Proof.
  intros Hz. destruct z as [|p|p]; try lia.
  destruct (str_of_int_neg p) as [rest Hrest].
  unfold format_postal. cbn [isna already_formatted]. unfold str_int.
  change (Z.abs (Z.neg p)) with (- Z.neg p)%Z.
  destruct (max_str_digits <? length (str_of_int (- Z.neg p))); cbn [bind];
    [reflexivity|].
  rewrite Hrest.
  assert (Hd : isdigit (zfill 7 (0x2D%N :: rest)) = false).
  { unfold zfill. destruct (7 - length (0x2D%N :: rest) =? 0); reflexivity. }
  rewrite Hd. reflexivity.
Qed.

Lemma format_postal_negative_witness :
  format_postal (PInt (-1234567)) = Ok no_postal_code.
Proof.
  refine (eq_trans (format_postal_negative (-1234567) _) _).
  - lia.
  - vm_compute. reflexivity.
Defined.

(** ** The mapping of match_items *)

Lemma best_match_index (threshold : Q) (src : ustr) (l : list ustr) (j : nat) :
  (best_match threshold src l).2 = Some j -> j < length l.
Proof.
  unfold best_match. revert j. induction l as [|t l IH] using rev_ind; intros j.
  - discriminate.
  - rewrite enumerate_snoc, foldl_app, length_app. simpl. unfold scan_step at 1. simpl.
    destruct (_ && _); simpl.
    + intros [= <-]. lia.
    + intros Hj. apply IH in Hj. lia.
Qed.

Lemma match_items_sorted (l tgt_list : list ustr) (threshold : Q) :
  StronglySorted lt (match_items l tgt_list threshold).*1 /\
  Forall (fun p => p.1 < length l /\ p.2 < length tgt_list)
         (match_items l tgt_list threshold).
Proof.
  unfold match_items. induction l as [|src l IH] using rev_ind.
  - simpl. split; constructor.
  - rewrite enumerate_snoc, foldl_app, length_app. simpl.
    set (m := foldl _ [] (enumerate l)) in *. destruct IH as [Hs Hall].
    assert (Hw : Forall (fun p => p.1 < length l + 1 /\ p.2 < length tgt_list) m).
    { eapply Forall_impl; [exact Hall|]. simpl. intros p [? ?]. lia. }
    destruct (best_match threshold src tgt_list).2 as [j|] eqn:Hbest; [|auto].
    assert (Hfresh : length l ∉ m.*1).
    { intros Hin. apply list_elem_of_fmap in Hin as (p & Hp & Hin).
      rewrite Forall_forall in Hall. apply Hall in Hin. lia. }
    rewrite dict_set_fresh by exact Hfresh. split.
    + rewrite fmap_app. apply StronglySorted_app_2; [|exact Hs|repeat constructor].
      intros k1 k2 Hk1 Hk2. apply list_elem_of_singleton in Hk2. subst k2.
      apply list_elem_of_fmap in Hk1 as (p & -> & Hin).
      rewrite Forall_forall in Hall. apply Hall in Hin. simpl. lia.
    + apply Forall_app. split; [exact Hw|]. constructor; [|constructor].
      simpl. apply best_match_index in Hbest. lia.
Qed.

(** X6: for every threshold, the entries of the mapping are stored by
    increasing source position, each source position is inside the
    source list and each target position inside the target list. *)
Theorem match_items_entries (src_list tgt_list : list ustr) (threshold : Q) :
  StronglySorted lt (match_items src_list tgt_list threshold).*1 /\
  Forall (fun p => p.1 < length src_list /\ p.2 < length tgt_list)
         (match_items src_list tgt_list threshold) /\
  length (match_items src_list tgt_list threshold) <= length src_list.
Proof.
  destruct (match_items_sorted src_list tgt_list threshold) as [Hs Hall].
  split; [exact Hs|]. split; [exact Hall|].
  destruct (match_items_inv src_list tgt_list threshold) as [Hnd _].
  assert (Hsub : (match_items src_list tgt_list threshold).*1 ⊆ seq 0 (length src_list)).
  { intros k Hk. apply list_elem_of_fmap in Hk as (p & -> & Hin).
    rewrite Forall_forall in Hall. apply Hall in Hin. apply elem_of_seq. lia. }
  pose proof (submseteq_length _ _ (NoDup_submseteq _ _ Hnd Hsub)) as Hlen.
  rewrite length_fmap, length_seq in Hlen. exact Hlen.
Qed.

(** X7: between two thresholds that are not negative, the higher one
    only drops entries: an entry of the mapping for the higher threshold
    is an entry of the mapping for the lower one, with the same target. *)
Theorem match_items_threshold_filters (src_list tgt_list : list ustr) (t1 t2 : Q)
    (i j : nat) :
  (0 <= t1)%Q -> (t1 <= t2)%Q ->
  dict_get i (match_items src_list tgt_list t2) = Some j ->
  dict_get i (match_items src_list tgt_list t1) = Some j.
Proof.
  intros H1 H12 Hj.
  assert (H2 : (0 <= t2)%Q) by lra.
  destruct (match_items_entry _ _ _ _ _ H2 Hj) as (src & t & Hi & Ht & Hgt & Hmax & Hlt).
  destruct (proj2 (match_items_has_entry src_list tgt_list t1 i src H1 Hi)) as [j1 Hj1].
  { exists j, t. split; [exact Ht|lra]. }
  rewrite Hj1. f_equal.
  destruct (match_items_entry _ _ _ _ _ H1 Hj1)
    as (src' & t' & Hi' & Ht' & _ & Hmax' & Hlt').
  rewrite Hi in Hi'. injection Hi' as <-.
  destruct (Nat.lt_trichotomy j1 j) as [Hl|[He|Hg]]; [|exact He|].
  - specialize (Hlt _ _ Hl Ht'). specialize (Hmax' _ _ Ht). lra.
  - specialize (Hlt' _ _ Hg Ht). specialize (Hmax _ _ Ht'). lra.
Qed.

Lemma match_items_threshold_filters_witness :
  dict_get 0 (match_items [U "ABC"] [U "XYZ"; U "ABC"] default_threshold) = Some 1.
Proof.
  apply (match_items_threshold_filters [U "ABC"] [U "XYZ"; U "ABC"]
           default_threshold (1 # 2) 0 1).
  - intros H; discriminate H.
  - intros H; discriminate H.
  - vm_compute. reflexivity.
Defined.

(** ** The column rules, row by row *)

Lemma apply_column_rows (c : column) (f : pyval -> result pyval)
    (df df' : list OrderRow) :
  apply_column c f df = Ok df' ->
  length df' = length df /\
  forall i r, df !! i = Some r ->
    exists v, f (cell r c) = Ok v /\ df' !! i = Some (set_cell c v r).
Proof.
  revert df'; induction df as [|r0 df IH]; intros df'; simpl.
  - intros [= <-]. split; [reflexivity|]. intros i r Hi.
    rewrite lookup_nil in Hi. discriminate.
  - destruct (f (cell r0 c)) as [v|] eqn:Hv; simpl; [|discriminate].
    destruct (apply_column c f df) as [rest|]; simpl; [|discriminate].
    intros [= <-]. destruct (IH rest eq_refl) as [Hl Hrows].
    split; [simpl; lia|].
    intros [|i] r; simpl.
    + intros [= <-]. eauto.
    + apply Hrows.
Qed.

Lemma count_notna_prefixed (x : ustr) (r : OrderRow) :
  count_notna (set_cell order_no (PStr x) r) = S (count_other r).
Proof. reflexivity. Qed.

(** The row that the four rules make of a row [r] of the sheet they are
    given, [s] being the postal code as formatted. *)
Lemma apply_rules_row (float_repr : bool -> positive -> Z -> ustr)
    (df df' : list OrderRow) :
  apply_rules float_repr df = Ok df' ->
  length df' = length df /\
  forall i r, df !! i = Some r ->
    exists s, format_postal (cell r consignee_postalcode) = Ok s /\
      df' !! i
      = Some (set_cell consignee_postalcode (PStr s)
                (set_cell consignee_address (strip_brackets (cell r consignee_address))
                   (override_all
                      (set_cell order_no (prefix_order_no float_repr (cell r order_no))
                                r)))).
Proof.
  unfold apply_rules. rewrite override_loop_rows. intros Hap.
  apply apply_column_rows in Hap as [Hl Hrows]. rewrite !length_map in Hl.
  split; [exact Hl|]. intros i r Hi.
  set (r1 := set_cell order_no (prefix_order_no float_repr (cell r order_no)) r).
  destruct (Hrows i (set_cell consignee_address
                       (strip_brackets (cell (override_all r1) consignee_address))
                       (override_all r1))) as (v & Hv & Hrow).
  { rewrite !list_lookup_fmap, Hi. reflexivity. }
  pose proof (sparse_row_override_cells r1) as Hc. cbv zeta in Hc.
  destruct Hc as (_ & _ & _ & _ & _ & _ & _ & _ & _ & _ & Haddr & Hpost & _).
  cbn [cell set_cell] in Hv. rewrite bool_decide_eq_false_2 in Hv by discriminate.
  rewrite Hpost in Hv. rewrite Haddr in Hrow.
  change (cell r1 consignee_postalcode) with (cell r consignee_postalcode) in Hv.
  change (cell r1 consignee_address) with (cell r consignee_address) in Hrow.
  destruct (format_postal (cell r consignee_postalcode)) as [s|e]; simpl in Hv;
    [|discriminate].
  injection Hv as <-. exists s. split; [reflexivity|exact Hrow].
Qed.

Lemma rules_row_cells (float_repr : bool -> positive -> Z -> ustr)
    (r : OrderRow) (s : ustr) :
  let dense := 0 <? count_other r in
  let r' := set_cell consignee_postalcode (PStr s)
              (set_cell consignee_address (strip_brackets (cell r consignee_address))
                 (override_all
                    (set_cell order_no (prefix_order_no float_repr (cell r order_no))
                              r))) in
  cell r' order_no = PStr (add_prefix (py_str float_repr (cell r order_no))) /\
  cell r' service_code = (if dense then PStr (U "99") else cell r service_code) /\
  cell r' consignee_country_code
    = (if dense then PStr (U "JP") else cell r consignee_country_code) /\
  cell r' pkg = (if dense then PStr (U "1") else cell r pkg) /\
  cell r' item_origin = (if dense then PStr (U "KR") else cell r item_origin) /\
  cell r' currency = (if dense then PStr (U "JPY") else cell r currency) /\
  cell r' consignee_address = strip_brackets (cell r consignee_address) /\
  cell r' consignee_postalcode = PStr s /\
  cell r' item_name = cell r item_name /\
  cell r' item_pcs = cell r item_pcs /\
  cell r' shoppingmall_url = cell r shoppingmall_url /\
  cell r' unit_total_price = cell r unit_total_price /\
  others r' = others r.
Proof.
  intros dense r'.
  set (r1 := set_cell order_no (prefix_order_no float_repr (cell r order_no)) r) in *.
  pose proof (sparse_row_override_cells r1) as Hc.
  cbv zeta in Hc.
  change (1 <? count_notna r1) with dense in Hc.
  destruct Hc as (H1 & H2 & H3 & H4 & H5 & H6 & H7 & H8 & H9 & H10 & H11 & H12 & H13).
  subst r'.
  cbn [cell set_cell others bool_decide decide_rel column_eq_dec
       column_rec column_rect sumbool_rec sumbool_rect].
  rewrite H1, H2, H3, H4, H5, H6, H7, H8, H9, H10, H13.
  repeat split; reflexivity.
Qed.

(** X8: the column rules, cell by cell.  When they end, the sheet has as
    many rows as before and in every row: the order number is its text
    with the prefix; each of the five fixed columns holds its fixed value
    when the row has a cell besides the order number that is not missing,
    and what it held otherwise; the address has lost its bracketed parts;
    the postal code is what [format_postal] returns for it; the item
    name, the quantity, the shop address, the price and the cells of the
    columns the script does not name are unchanged. *)
Theorem apply_rules_cells (float_repr : bool -> positive -> Z -> ustr)
    (df df' : list OrderRow) :
  apply_rules float_repr df = Ok df' ->
  length df' = length df /\
  forall i r, df !! i = Some r ->
    exists r' s, df' !! i = Some r' /\
      format_postal (cell r consignee_postalcode) = Ok s /\
      let dense := 0 <? count_other r in
      cell r' order_no = PStr (add_prefix (py_str float_repr (cell r order_no))) /\
      cell r' service_code = (if dense then PStr (U "99") else cell r service_code) /\
      cell r' consignee_country_code
        = (if dense then PStr (U "JP") else cell r consignee_country_code) /\
      cell r' pkg = (if dense then PStr (U "1") else cell r pkg) /\
      cell r' item_origin = (if dense then PStr (U "KR") else cell r item_origin) /\
      cell r' currency = (if dense then PStr (U "JPY") else cell r currency) /\
      cell r' consignee_address = strip_brackets (cell r consignee_address) /\
      cell r' consignee_postalcode = PStr s /\
      cell r' item_name = cell r item_name /\
      cell r' item_pcs = cell r item_pcs /\
      cell r' shoppingmall_url = cell r shoppingmall_url /\
      cell r' unit_total_price = cell r unit_total_price /\
      others r' = others r.
Proof.
  intros Hap. apply apply_rules_row in Hap as [Hl Hrows]. split; [exact Hl|].
  intros i r Hi. destruct (Hrows i r Hi) as (s & Hs & Hrow).
  eexists _, s. split; [exact Hrow|]. split; [exact Hs|].
  apply rules_row_cells.
Qed.

Lemma apply_rules_cells_witness :
  exists df', apply_rules (fun _ _ _ => []) example_orders = Ok df' /\
    exists r', df' !! 1 = Some r' /\
      cell r' order_no = PStr (U "8612345") /\
      cell r' currency = PStr (U "JPY") /\
      cell r' consignee_address = PStr (U " Minato 1-2") /\
      cell r' consignee_postalcode = PStr (U "123-4567").
Proof.
  destruct (apply_rules (fun _ _ _ => []) example_orders) as [df'|e] eqn:Hap.
  - exists df'. split; [reflexivity|].
    destruct (proj2 (apply_rules_cells _ _ _ Hap) 1 _ eq_refl)
      as (r' & s & Hrow & Hs & Hcells).
    cbv zeta in Hcells.
    destruct Hcells as (H1 & _ & _ & _ & _ & H6 & H7 & H8 & _).
    exists r'. split; [exact Hrow|].
    vm_compute in Hs. injection Hs as <-.
    rewrite H1, H6, H7, H8. repeat split; vm_compute; reflexivity.
  - exfalso. vm_compute in Hap. discriminate Hap.
Defined.

(** ** What a run writes, row by row *)

Lemma s2h_untouched (i : nat) (mapping : list (nat * nat)) :
  i ∉ mapping.*1 ->
  forall st st', for_each s2h_body st mapping = Ok st' ->
                 df_S_upd st' !! i = df_S_upd st !! i.
Proof.
  induction mapping as [|p mapping IH]; simpl; intros Hi st st'.
  - intros [= <-]. reflexivity.
  - apply not_elem_of_cons in Hi as [Hp Hi].
    destruct (s2h_body st p) as [st1|] eqn:Hb; simpl; [|discriminate].
    intros Hrest. rewrite (IH Hi _ _ Hrest).
    apply s2h_body_frame in Hb as (_ & _ & _ & Hother & _). apply Hother. exact Hp.
Qed.

Lemma s2h_other_cells (mapping : list (nat * nat)) (st st' : frames) :
  for_each s2h_body st mapping = Ok st' ->
  length (df_S_upd st') = length (df_S_upd st) /\
  forall i r', df_S_upd st' !! i = Some r' ->
    exists r, df_S_upd st !! i = Some r /\ others r' = others r /\
      forall c, c <> shoppingmall_url -> c <> unit_total_price ->
                cell r' c = cell r c.
Proof.
  apply (for_each_inv
           (fun s => length (df_S_upd s) = length (df_S_upd st) /\
              forall i r', df_S_upd s !! i = Some r' ->
                exists r, df_S_upd st !! i = Some r /\ others r' = others r /\
                  forall c, c <> shoppingmall_url -> c <> unit_total_price ->
                            cell r' c = cell r c)).
  - intros s x s' [Hl Hrows] Hb.
    apply s2h_body_frame in Hb as (_ & _ & Hl' & _ & Hstep).
    split; [congruence|]. intros i r' Hr'.
    destruct (Hstep i r' Hr') as (r1 & Hr1 & Ho1 & Hc1).
    destruct (Hrows i r1 Hr1) as (r & Hr & Ho & Hc).
    exists r. split; [exact Hr|]. split; [congruence|].
    intros c Hu Hp. rewrite Hc1, Hc by assumption. reflexivity.
  - split; [reflexivity|]. intros i r' Hr'. exists r'. auto.
Qed.

Lemma s2h_matched (mapping : list (nat * nat)) :
  NoDup mapping.*1 ->
  forall st st' i j r, for_each s2h_body st mapping = Ok st' ->
    (i, j) ∈ mapping -> df_S_upd st !! i = Some r ->
    exists h r', df_H st !! j = Some h /\ df_S_upd st' !! i = Some r' /\
      cell r' shoppingmall_url = h_url h /\ cell r' unit_total_price = h_price h.
Proof.
  induction mapping as [|[k jk] mapping IH]; intros Hnd st st' i j r;
    cbn [for_each].
  - intros _ Hin. apply elem_of_nil in Hin. contradiction.
  - rewrite fmap_cons in Hnd. apply NoDup_cons in Hnd as [Hk Hnd]. simpl in Hk.
    destruct (s2h_body st (k, jk)) as [st1|] eqn:Hb; cbn [bind]; [|discriminate].
    intros Hrest Hin Hr. apply elem_of_cons in Hin as [Heq|Hin].
    + injection Heq as -> ->.
      rewrite (s2h_untouched k _ Hk _ _ Hrest).
      revert Hb. unfold s2h_body, H_at. simpl.
      destruct (df_H st !! jk) as [h|]; simpl; [|discriminate].
      intros Heq; injection Heq as <-. simpl.
      rewrite !list_lookup_alter_eq, Hr. simpl.
      exists h. eexists. split; [reflexivity|]. split; [reflexivity|].
      split; reflexivity.
    + assert (Hne : i <> k).
      { intros ->. apply Hk. apply list_elem_of_fmap. exists (k, j). auto. }
      pose proof (s2h_body_frame _ _ _ Hb) as (HH & _ & _ & Hother & _).
      rewrite <- HH. apply (IH Hnd st1 st' i j r Hrest Hin).
      rewrite (Hother i Hne). exact Hr.
Qed.

Lemma dr2h_matched (mapping : list (nat * nat)) :
  NoDup mapping.*1 ->
  forall st st' i j d, for_each dr2h_body st mapping = Ok st' ->
    (i, j) ∈ mapping -> df_DR st !! i = Some d ->
    exists h, df_H st !! j = Some h /\
      df_DR st' !! i
      = Some {| dr_ref_no := dr_ref_no d; dr_code := h_code h; dr_name := h_name h;
                dr_qty := dr_qty d; dr_barcode := h_barcode h |}.
Proof.
  induction mapping as [|[k jk] mapping IH]; intros Hnd st st' i j d;
    cbn [for_each].
  - intros _ Hin. apply elem_of_nil in Hin. contradiction.
  - rewrite fmap_cons in Hnd. apply NoDup_cons in Hnd as [Hk Hnd]. simpl in Hk.
    destruct (dr2h_body st (k, jk)) as [st1|] eqn:Hb; cbn [bind]; [|discriminate].
    intros Hrest Hin Hd. apply elem_of_cons in Hin as [Heq|Hin].
    + injection Heq as -> ->.
      rewrite (dr2h_untouched k _ Hk _ _ Hrest).
      destruct (df_H st !! jk) as [h|] eqn:Hh.
      * exists h. split; [reflexivity|].
        apply dr2h_body_frame in Hb as (_ & _ & _ & Hrow). exact (Hrow h d Hh Hd).
      * revert Hb. unfold dr2h_body, H_at. rewrite Hh. simpl. discriminate.
    + assert (Hne : i <> k).
      { intros ->. apply Hk. apply list_elem_of_fmap. exists (k, j). auto. }
      pose proof (dr2h_body_frame _ _ _ Hb) as (HH & _ & Hother & _).
      rewrite <- HH. apply (IH Hnd st1 st' i j d Hrest Hin).
      rewrite (Hother i Hne). exact Hd.
Qed.

Lemma dr2h_kept_columns (mapping : list (nat * nat)) (st st' : frames) :
  for_each dr2h_body st mapping = Ok st' ->
  map dr_ref_no (df_DR st') = map dr_ref_no (df_DR st) /\
  map dr_qty (df_DR st') = map dr_qty (df_DR st).
Proof.
  apply (for_each_inv
           (fun s => map dr_ref_no (df_DR s) = map dr_ref_no (df_DR st) /\
                     map dr_qty (df_DR s) = map dr_qty (df_DR st))); [|auto].
  intros s [k j] s' [<- <-]. unfold dr2h_body, H_at. simpl.
  destruct (df_H s !! j) as [h|]; simpl; [|discriminate].
  intros Heq; injection Heq as <-. simpl.
  split; rewrite !map_alter_same; reflexivity.
Qed.

(** The three stages of a run that ends. *)
Lemma run_stages (float_repr : bool -> positive -> Z -> ustr)
    (H : list CatalogRow) (df_S : list OrderRow) (st : frames) :
  run float_repr H df_S = Ok st ->
  exists st1,
    for_each s2h_body {| df_H := H; df_S_upd := df_S; df_DR := [] |}
      (match_items (s_names_clean df_S) (h_names_clean H) default_threshold) = Ok st1 /\
    apply_rules float_repr (df_S_upd st1) = Ok (df_S_upd st) /\
    for_each dr2h_body
      {| df_H := H; df_S_upd := df_S_upd st; df_DR := assemble_DR (df_S_upd st) |}
      (match_items (s_names_clean df_S) (h_names_clean H) default_threshold) = Ok st.
Proof.
  intros Hrun. pose proof (run_inv _ _ _ _ Hrun) as [Hd Hkeep].
  assert (Hnames : dr_names_clean (assemble_DR (df_S_upd st)) = s_names_clean df_S).
  { unfold dr_names_clean, assemble_DR, s_names_clean. rewrite map_map. simpl.
    rewrite <- !(map_map (fun r : OrderRow => cell r item_name)
                         (fun v => clean_text (fillna_empty v))).
    rewrite (Hkeep item_name (or_introl eq_refl)). reflexivity. }
  rewrite Hnames in Hd.
  revert Hrun. unfold run.
  destruct (for_each s2h_body _ _) as [st1|e] eqn:Hs; simpl; [|discriminate].
  destruct (apply_rules float_repr (df_S_upd st1)) as [upd|e] eqn:Hr; simpl;
    [|discriminate].
  intros Hrun. pose proof (proj2 propagation_frames _ _ _ Hrun) as [_ Hupd].
  simpl in Hupd. exists st1. split; [reflexivity|]. split; [congruence|exact Hd].
Qed.

(** X9: in a run that ends, the second call of [match_items], on the
    names of the DR sheet, returns the mapping of the first call, on the
    names of the order sheet as it was read: no rule of the script
    writes the item names. *)
Theorem second_mapping_is_first (float_repr : bool -> positive -> Z -> ustr)
    (H : list CatalogRow) (df_S : list OrderRow) (st : frames) :
  run float_repr H df_S = Ok st ->
  match_items (dr_names_clean (assemble_DR (df_S_upd st))) (h_names_clean H)
              default_threshold
  = match_items (s_names_clean df_S) (h_names_clean H) default_threshold.
Proof.
  intros Hrun. apply run_inv in Hrun as [_ Hkeep]. f_equal.
  unfold dr_names_clean, assemble_DR, s_names_clean. rewrite map_map. simpl.
  rewrite <- !(map_map (fun r : OrderRow => cell r item_name)
                       (fun v => clean_text (fillna_empty v))).
  rewrite (Hkeep item_name (or_introl eq_refl)). reflexivity.
Qed.

Lemma second_mapping_is_first_witness :
  exists st, run (fun _ _ _ => []) example_catalog example_orders = Ok st /\
    match_items (dr_names_clean (assemble_DR (df_S_upd st)))
                (h_names_clean example_catalog) default_threshold = [(1, 0)].
Proof.
  destruct (run (fun _ _ _ => []) example_catalog example_orders) as [st|e] eqn:Hrun.
  - exists st. split; [reflexivity|].
    rewrite (second_mapping_is_first _ _ _ _ Hrun). vm_compute. reflexivity.
  - exfalso. vm_compute in Hrun. discriminate Hrun.
Defined.

(** X10: the order sheet after a run.  It has as many rows as the sheet
    that was read.  A row whose position has an entry in the mapping
    holds the shop address and the price of the catalog row of the
    entry; a row without an entry holds its own.  In every row the order
    number is its text with the prefix, the address has lost its
    bracketed parts, the postal code is what [format_postal] returns for
    the one that was read, and the item name, the quantity and the cells
    of the columns the script does not name are those that were read. *)
Theorem order_sheet_after_run (float_repr : bool -> positive -> Z -> ustr)
    (H : list CatalogRow) (df_S : list OrderRow) (st : frames) :
  run float_repr H df_S = Ok st ->
  length (df_S_upd st) = length df_S /\
  forall i r, df_S !! i = Some r ->
    exists ru s, df_S_upd st !! i = Some ru /\
      format_postal (cell r consignee_postalcode) = Ok s /\
      match dict_get i (match_items (s_names_clean df_S) (h_names_clean H)
                                    default_threshold) with
      | Some j => exists h, H !! j = Some h /\
                            cell ru shoppingmall_url = h_url h /\
                            cell ru unit_total_price = h_price h
      | None => cell ru shoppingmall_url = cell r shoppingmall_url /\
                cell ru unit_total_price = cell r unit_total_price
      end /\
      cell ru order_no = PStr (add_prefix (py_str float_repr (cell r order_no))) /\
      cell ru consignee_address = strip_brackets (cell r consignee_address) /\
      cell ru consignee_postalcode = PStr s /\
      cell ru item_name = cell r item_name /\
      cell ru item_pcs = cell r item_pcs /\
      others ru = others r.
Proof.
  intros Hrun. apply run_stages in Hrun as (st1 & Hs & Hr & _).
  set (s2h := match_items (s_names_clean df_S) (h_names_clean H) default_threshold) in *.
  destruct (match_items_inv (s_names_clean df_S) (h_names_clean H) default_threshold)
    as [Hnd _]. fold s2h in Hnd.
  pose proof (s2h_other_cells _ _ _ Hs) as [Hl1 Hrows1]. simpl in Hl1, Hrows1.
  apply apply_rules_row in Hr as [Hl2 Hrows2].
  split; [congruence|]. intros i r Hi.
  destruct (lookup_lt_is_Some_2 (df_S_upd st1) i) as [r1 Hr1].
  { rewrite Hl1. eapply lookup_lt_Some, Hi. }
  destruct (Hrows1 i r1 Hr1) as (r0 & Hr0 & Ho & Hc). rewrite Hi in Hr0.
  injection Hr0 as <-.
  destruct (Hrows2 i r1 Hr1) as (s & Hfs & Hrow).
  pose proof (rules_row_cells float_repr r1 s) as Hcells. cbv zeta in Hcells.
  destruct Hcells as (C1 & _ & _ & _ & _ & _ & C7 & C8 & C9 & C10 & C11 & C12 & C13).
  rewrite !Hc in * by discriminate.
  eexists _, s. split; [exact Hrow|]. split; [exact Hfs|].
  split; [|rewrite C1, C7, C8, C9, C10, C13, Ho; repeat split; reflexivity].
  rewrite C11, C12.
  destruct (dict_get i s2h) as [j|] eqn:Hj.
  - apply (dict_get_elem _ _ _ Hnd) in Hj.
    destruct (s2h_matched s2h Hnd _ _ i j r Hs Hj Hi) as (h & r1' & Hh & Hr1' & Hu & Hp).
    rewrite Hr1 in Hr1'. injection Hr1' as <-. exists h. auto.
  - apply dict_get_None in Hj. rewrite (s2h_untouched i _ Hj _ _ Hs) in Hr1.
    simpl in Hr1. rewrite Hi in Hr1. injection Hr1 as <-. auto.
Qed.

Lemma order_sheet_after_run_witness :
  exists st, run (fun _ _ _ => []) example_catalog example_orders = Ok st /\
    length (df_S_upd st) = 2 /\
    exists ru, df_S_upd st !! 1 = Some ru /\
      cell ru shoppingmall_url = PStr (U "https://shop.example/p1") /\
      cell ru unit_total_price = PInt 1500 /\
      cell ru order_no = PStr (U "8612345") /\
      cell ru consignee_postalcode = PStr (U "123-4567").
Proof.
  destruct (run (fun _ _ _ => []) example_catalog example_orders) as [st|e] eqn:Hrun.
  - exists st. split; [reflexivity|].
    destruct (order_sheet_after_run _ _ _ _ Hrun) as [Hl Hrows].
    split; [exact Hl|].
    destruct (Hrows 1 _ eq_refl) as (ru & s & Hru & Hs & Hm & Ho & _ & Hp & _).
    exists ru. split; [exact Hru|].
    vm_compute in Hs. injection Hs as <-.
    assert (Hj : dict_get 1 (match_items (s_names_clean example_orders)
                               (h_names_clean example_catalog) default_threshold)
                 = Some 0) by (vm_compute; reflexivity).
    rewrite Hj in Hm. destruct Hm as (h & Hh & Hu & Hpr).
    cbv in Hh. injection Hh as <-.
    rewrite Hu, Hpr, Ho, Hp. repeat split; vm_compute; reflexivity.
  - exfalso. vm_compute in Hrun. discriminate Hrun.
Defined.

(** X11: the DR sheet after a run.  It has one row for each row of the
    order sheet, in the same order.  Its order number is the text of the
    order number with the prefix and its quantity is the quantity that
    was read; when the position has an entry in the mapping, the product
    code, the barcode and the name are those of the catalog row of the
    entry; when it has none, the name is the item name that was read and
    the product code and the barcode are missing. *)
Theorem dr_sheet_after_run (float_repr : bool -> positive -> Z -> ustr)
    (H : list CatalogRow) (df_S : list OrderRow) (st : frames) :
  run float_repr H df_S = Ok st ->
  length (df_DR st) = length df_S /\
  forall i r, df_S !! i = Some r ->
    exists d, df_DR st !! i = Some d /\
      dr_ref_no d = PStr (add_prefix (py_str float_repr (cell r order_no))) /\
      dr_qty d = cell r item_pcs /\
      match dict_get i (match_items (s_names_clean df_S) (h_names_clean H)
                                    default_threshold) with
      | Some j => exists h, H !! j = Some h /\ dr_code d = h_code h /\
                            dr_barcode d = h_barcode h /\ dr_name d = h_name h
      | None => dr_code d = NaN /\ dr_barcode d = NaN /\ dr_name d = cell r item_name
      end.
Proof.
  intros Hrun. pose proof (run_stages _ _ _ _ Hrun) as (st1 & Hs & Hr & Hd).
  set (m := match_items (s_names_clean df_S) (h_names_clean H) default_threshold) in *.
  destruct (match_items_inv (s_names_clean df_S) (h_names_clean H) default_threshold)
    as [Hnd _]. fold m in Hnd.
  pose proof (s2h_other_cells _ _ _ Hs) as [Hl1 Hrows1]. simpl in Hl1, Hrows1.
  apply apply_rules_row in Hr as [Hl2 Hrows2].
  pose proof (dr2h_kept_columns _ _ _ Hd) as [Href Hqty]. simpl in Href, Hqty.
  assert (Hlen : length (df_DR st) = length df_S).
  { apply (f_equal length) in Href. unfold assemble_DR in Href.
    rewrite !length_map in Href. congruence. }
  split; [exact Hlen|]. intros i r Hi.
  destruct (lookup_lt_is_Some_2 (df_S_upd st1) i) as [r1 Hr1].
  { rewrite Hl1. eapply lookup_lt_Some, Hi. }
  destruct (Hrows1 i r1 Hr1) as (r0 & Hr0 & Ho & Hc). rewrite Hi in Hr0.
  injection Hr0 as <-.
  destruct (Hrows2 i r1 Hr1) as (s & Hfs & Hrow).
  pose proof (rules_row_cells float_repr r1 s) as Hcells. cbv zeta in Hcells.
  destruct Hcells as (C1 & _ & _ & _ & _ & _ & _ & _ & C9 & C10 & _).
  assert (Hd0 : assemble_DR (df_S_upd st) !! i
                = Some {| dr_ref_no := PStr (add_prefix (py_str float_repr (cell r1 order_no)));
                          dr_code := NaN; dr_name := cell r1 item_name;
                          dr_qty := cell r1 item_pcs; dr_barcode := NaN |}).
  { unfold assemble_DR. rewrite list_lookup_fmap, Hrow.
    cbn [fmap option_fmap option_map]. rewrite C1, C9, C10. reflexivity. }
  rewrite !Hc in Hd0 by discriminate.
  destruct (dict_get i m) as [j|] eqn:Hj.
  - apply (dict_get_elem _ _ _ Hnd) in Hj.
    destruct (dr2h_matched m Hnd _ _ i j _ Hd Hj Hd0) as (h & Hh & Hrowd).
    simpl in Hh, Hrowd. eexists. split; [exact Hrowd|]. simpl.
    split; [reflexivity|]. split; [reflexivity|]. exists h. auto.
  - apply dict_get_None in Hj. rewrite (dr2h_untouched i _ Hj _ _ Hd). simpl.
    eexists. split; [exact Hd0|]. simpl. auto.
Qed.

Lemma dr_sheet_after_run_witness :
  exists st, run (fun _ _ _ => []) example_catalog example_orders = Ok st /\
    length (df_DR st) = 2 /\
    df_DR st !! 1 = Some {| dr_ref_no := PStr (U "8612345"); dr_code := PStr (U "P1");
                            dr_name := PStr catalog_name; dr_qty := PInt 3;
                            dr_barcode := PStr (U "B1") |}.
Proof.
  destruct (run (fun _ _ _ => []) example_catalog example_orders) as [st|e] eqn:Hrun.
  - exists st. split; [reflexivity|].
    destruct (dr_sheet_after_run _ _ _ _ Hrun) as [Hl Hrows].
    split; [exact Hl|].
    destruct (Hrows 1 _ eq_refl) as (d & Hd & Href & Hq & Hm).
    assert (Hj : dict_get 1 (match_items (s_names_clean example_orders)
                               (h_names_clean example_catalog) default_threshold)
                 = Some 0) by (vm_compute; reflexivity).
    rewrite Hj in Hm. destruct Hm as (h & Hh & Hc & Hb & Hn).
    cbv in Hh. injection Hh as <-.
    rewrite Hd. destruct d as [ref code name qty bar].
    cbn [dr_ref_no dr_code dr_name dr_qty dr_barcode] in *.
    rewrite Href, Hq, Hc, Hb, Hn. vm_compute. reflexivity.
  - exfalso. vm_compute in Hrun. discriminate Hrun.
Defined.

(** ** When format_postal raises *)

Lemma postal_text_returns (s0 : ustr) :
  exists s,
    (let digits := zfill 7 s0 in
     if isdigit digits && (length digits =? 7)
     then Ok (take 3 digits ++ [0x2D%N] ++ drop 3 digits)
     else Ok no_postal_code) = Ok s.
Proof.
  cbv zeta. destruct (isdigit (zfill 7 s0) && (length (zfill 7 s0) =? 7)); eauto.
Qed.

Lemma str_int_raises (z : Z) (e : exn) :
  str_int z = Raise e <->
  e = ValueError /\ max_str_digits < length (str_of_int (Z.abs z)).
Proof.
  unfold str_int.
  destruct (Nat.ltb_spec max_str_digits (length (str_of_int (Z.abs z)))) as [Hl|Hl].
  - split; [intros [= <-]; auto|intros [-> _]; reflexivity].
  - split; [discriminate|intros [_ Hgt]; lia].
Qed.

Lemma format_postal_raises (postal : pyval) (e : exn) :
  format_postal postal = Raise e ->
  (e = OverflowError /\ exists sgn, postal = PFloat (S754_infinity sgn)) \/
  (e = ValueError /\
   exists z, (postal = PInt z \/ exists f, postal = PFloat f /\ int_of_float f = Ok z) /\
             max_str_digits < length (str_of_int (Z.abs z))).
Proof.
  unfold format_postal. destruct postal as [|b|z|f|s]; cbn [isna already_formatted].
  - discriminate.
  - assert (Hb : str_int (if b then 1 else 0)%Z
                 = Ok (str_of_int (if b then 1 else 0)%Z)).
    { destruct b; vm_compute; reflexivity. }
    rewrite Hb. cbn [bind]. destruct (postal_text_returns (str_of_int (if b then 1 else 0)%Z))
      as [s Hs]. cbv zeta in Hs. rewrite Hs. discriminate.
  - destruct (str_int z) as [s0|e0] eqn:Hz; cbn [bind].
    + destruct (postal_text_returns s0) as [s Hs]. cbv zeta in Hs. rewrite Hs.
      discriminate.
    + intros [= <-]. apply str_int_raises in Hz as [-> Hz]. right.
      split; [reflexivity|]. exists z. auto.
  - destruct f as [sgn|sgn| |sgn m ex].
    + cbn [isna int_of_float bind].
      assert (Hb : str_int 0 = Ok (str_of_int 0)) by (vm_compute; reflexivity).
      rewrite Hb. cbn [bind].
      destruct (postal_text_returns (str_of_int 0)) as [s Hs]. cbv zeta in Hs.
      rewrite Hs. discriminate.
    + cbn [isna int_of_float bind]. intros [= <-]. left.
      split; [reflexivity|]. exists sgn. reflexivity.
    + discriminate.
    + cbn [isna bind].
      destruct (int_of_float (S754_finite sgn m ex)) as [z|e0] eqn:Hf; [|discriminate Hf].
      cbn [bind]. destruct (str_int z) as [s0|e1] eqn:Hz; cbn [bind].
      * destruct (postal_text_returns s0) as [s Hs]. cbv zeta in Hs. rewrite Hs.
        discriminate.
      * intros [= <-]. apply str_int_raises in Hz as [-> Hz]. right.
        split; [reflexivity|]. exists z. split; [|exact Hz].
        right. exists (S754_finite sgn m ex). auto.
  - destruct (re_fullmatch postal_re (strip s)); [discriminate|].
    cbn [bind]. destruct (postal_text_returns s) as [s1 Hs]. cbv zeta in Hs.
    rewrite Hs. discriminate.
Qed.

(** X12: [format_postal] raises in two cases only.  For an infinite
    float [int(postal)] raises [OverflowError]; for an integer, or a
    float whose integer part, with more digits than [str] converts,
    [str(int(postal))] raises [ValueError] (a float of the double format
    has 309 digits at most, so for it the second case does not arise).
    For every other value [format_postal] returns a text. *)
Theorem format_postal_raises_iff (postal : pyval) (e : exn) :
  format_postal postal = Raise e <->
  (e = OverflowError /\ exists sgn, postal = PFloat (S754_infinity sgn)) \/
  (e = ValueError /\
   exists z, (postal = PInt z \/ exists f, postal = PFloat f /\ int_of_float f = Ok z) /\
             max_str_digits < length (str_of_int (Z.abs z))).
Proof.
  split; [apply format_postal_raises|].
  intros [(-> & sgn & ->)|(-> & z & Hv & Hz)]; [reflexivity|].
  assert (Hs : str_int z = Raise ValueError) by (apply str_int_raises; auto).
  destruct Hv as [->|(f & -> & Hf)]; unfold format_postal.
  - cbn [isna already_formatted]. rewrite Hs. reflexivity.
  - assert (Hna : isna (PFloat f) = false).
    { destruct f; try reflexivity. discriminate Hf. }
    rewrite Hna. cbn [already_formatted]. rewrite Hf. cbn [bind]. rewrite Hs.
    reflexivity.
Qed.

(** ** A postal code that cannot be formatted stops the run *)

(** X13: a postal code for which [format_postal] raises stops the whole
    run: when one cell of the postal column of the order sheet is such a
    value (an infinite float, or an integer too long for [str]), the run
    raises and produces no sheet. *)
Theorem run_stops_on_bad_postal (float_repr : bool -> positive -> Z -> ustr)
    (H : list CatalogRow) (df_S : list OrderRow) (r : OrderRow) (e0 : exn) :
  r ∈ df_S ->
  format_postal (cell r consignee_postalcode) = Raise e0 ->
  exists e, run float_repr H df_S = Raise e.
Proof.
  intros Hin Hbad. destruct (run float_repr H df_S) as [st|e] eqn:Hrun; [|eauto].
  exfalso. apply run_stages in Hrun as (st1 & Hs & Hr & _).
  pose proof (s2h_other_cells _ _ _ Hs) as [Hl1 Hrows1]. simpl in Hl1, Hrows1.
  apply apply_rules_row in Hr as [_ Hrows2].
  apply list_elem_of_lookup in Hin as [i Hi].
  destruct (lookup_lt_is_Some_2 (df_S_upd st1) i) as [r1 Hr1].
  { rewrite Hl1. eapply lookup_lt_Some, Hi. }
  destruct (Hrows1 i r1 Hr1) as (r0 & Hr0 & _ & Hc). rewrite Hi in Hr0.
  injection Hr0 as <-.
  destruct (Hrows2 i r1 Hr1) as (s & Hfs & _).
  rewrite Hc, Hbad in Hfs by discriminate. discriminate Hfs.
Qed.

Lemma run_stops_on_bad_postal_witness :
  exists e,
    run (fun _ _ _ => []) example_catalog
        (example_orders
         ++ [set_cell consignee_postalcode (PFloat (S754_infinity false)) example_row])
    = Raise e.
Proof.
  apply (run_stops_on_bad_postal _ _ _
           (set_cell consignee_postalcode (PFloat (S754_infinity false)) example_row)
           OverflowError).
  - apply elem_of_app. right. left.
  - reflexivity.
Defined.

(** ** The rule of the address column *)

Lemma lazy_dot_unfold (ma : bool) (x : N) (s : ustr) :
  rm [LazyStar CDot; One (CLit 0x5D)] (fun moved _ => moved || negb ma) true (x :: s)
  = if (x =? 0x5D)%N then Some 1
    else if negb (x =? 0xA)%N
         then S <$> rm [LazyStar CDot; One (CLit 0x5D)]
                       (fun moved _ => moved || negb ma) true s
         else None.
Proof.
  change (rm [LazyStar CDot; One (CLit 0x5D)] (fun moved _ => moved || negb ma) true
             (x :: s))
    with (match (if (x =? 0x5D)%N then Some 1 else None) with
          | Some n => Some n
          | None => if negb (x =? 0xA)%N
                    then S <$> rm [LazyStar CDot; One (CLit 0x5D)]
                                  (fun moved _ => moved || negb ma) true s
                    else None
          end).
  destruct (x =? 0x5D)%N; reflexivity.
Qed.

Lemma bracket_match_unfold (ma : bool) (x : N) (s : ustr) :
  match_here bracket_re ma (x :: s)
  = if (x =? 0x5B)%N
    then S <$> rm [LazyStar CDot; One (CLit 0x5D)]
                  (fun moved _ => moved || negb ma) true s
    else None.
Proof. reflexivity. Qed.

Lemma lazy_dot_closes (ma : bool) (mid post : ustr) :
  0x5D%N ∉ mid -> 0xA%N ∉ mid ->
  rm [LazyStar CDot; One (CLit 0x5D)] (fun moved _ => moved || negb ma) true
     (mid ++ 0x5D%N :: post)
  = Some (S (length mid)).
Proof.
  induction mid as [|x mid IH]; intros Hc Hn.
  - simpl app. rewrite lazy_dot_unfold. reflexivity.
  - apply not_elem_of_cons in Hc as [Hx Hc]. apply not_elem_of_cons in Hn as [Hy Hn].
    cbn [app]. rewrite lazy_dot_unfold.
    destruct (N.eqb_spec x 0x5D) as [->|_]; [destruct (Hx eq_refl)|].
    destruct (N.eqb_spec x 0xA) as [->|_]; [destruct (Hy eq_refl)|].
    cbn [negb]. rewrite (IH Hc Hn). reflexivity.
Qed.

Lemma lazy_dot_open (ma : bool) (s : ustr) :
  0x5D%N ∉ s ->
  rm [LazyStar CDot; One (CLit 0x5D)] (fun moved _ => moved || negb ma) true s = None.
Proof.
  induction s as [|x s IH]; intros Hc; [reflexivity|].
  apply not_elem_of_cons in Hc as [Hx Hc]. rewrite lazy_dot_unfold.
  destruct (N.eqb_spec x 0x5D) as [->|_]; [destruct (Hx eq_refl)|].
  rewrite (IH Hc). destruct (negb (x =? 0xA)%N); reflexivity.
Qed.

Lemma bracket_sub_prefix (pre s : ustr) :
  0x5B%N ∉ pre ->
  sub_loop bracket_re 0 (pre ++ s) = pre ++ sub_loop bracket_re 0 s.
Proof.
  induction pre as [|x pre IH]; intros Hp; [reflexivity|].
  apply not_elem_of_cons in Hp as [Hx Hp].
  cbn [app sub_loop]. rewrite bracket_match_unfold.
  destruct (N.eqb_spec x 0x5B) as [->|_]; [destruct (Hx eq_refl)|].
  rewrite (IH Hp). reflexivity.
Qed.

Lemma bracket_sub_open (s : ustr) :
  0x5D%N ∉ s -> sub_loop bracket_re 0 s = s.
Proof.
  induction s as [|x s IH]; intros Hc; [reflexivity|].
  apply not_elem_of_cons in Hc as [Hx Hc].
  cbn [sub_loop]. rewrite bracket_match_unfold, (lazy_dot_open false s Hc).
  rewrite (IH Hc). destruct (x =? 0x5B)%N; reflexivity.
Qed.

(** X14: the rule of the address column leaves a text as it is when the
    text has no opening bracket, and also when it has no closing
    bracket. *)
Theorem strip_brackets_unchanged (s : ustr) :
  0x5B%N ∉ s \/ 0x5D%N ∉ s -> strip_brackets (PStr s) = PStr s.
Proof.
  intros [Hs|Hs]; unfold strip_brackets, re_sub; f_equal.
  - rewrite <- (app_nil_r s) at 1. rewrite (bracket_sub_prefix s [] Hs).
    apply app_nil_r.
  - apply bracket_sub_open, Hs.
Qed.

Lemma strip_brackets_unchanged_witness :
  strip_brackets (PStr (U "Minato 1-2 [east")) = PStr (U "Minato 1-2 [east").
Proof.
  apply strip_brackets_unchanged. right. vm_compute.
  intros H. repeat (apply elem_of_cons in H as [H|H]; [discriminate H|]).
  apply elem_of_nil in H. exact H.
Defined.

(** X15: the rule of the address column removes the first bracketed part
    of a text, from the first opening bracket to the first closing
    bracket after it, when no line break stands between them, keeps what
    stands before it and goes on with what follows. *)
Theorem strip_brackets_removes (pre mid post : ustr) :
  0x5B%N ∉ pre -> 0x5D%N ∉ mid -> 0xA%N ∉ mid ->
  strip_brackets (PStr (pre ++ [0x5B%N] ++ mid ++ [0x5D%N] ++ post))
  = PStr (pre ++ re_sub bracket_re post).
Proof.
  intros Hp Hc Hn. unfold strip_brackets, re_sub. f_equal.
  rewrite (bracket_sub_prefix pre _ Hp). f_equal.
  cbn [app sub_loop]. rewrite bracket_match_unfold.
  change (0x5B =? 0x5B)%N with true. cbn iota.
  rewrite (lazy_dot_closes false mid post Hc Hn).
  cbn [fmap option_fmap option_map].
  rewrite sub_loop_skip. f_equal.
  rewrite cons_middle, app_assoc. apply drop_app_length'.
  rewrite length_app. simpl. lia.
Qed.

Lemma strip_brackets_removes_witness :
  strip_brackets (PStr (U "Osaka [gate 2] Naniwa [B1]")) = PStr (U "Osaka  Naniwa ").
Proof.
  refine (eq_trans
            (strip_brackets_removes (U "Osaka ") (U "gate 2") (U " Naniwa [B1]") _ _ _)
            _).
  - vm_compute. intros H. repeat (apply elem_of_cons in H as [H|H]; [discriminate H|]).
    apply elem_of_nil in H. exact H.
  - vm_compute. intros H. repeat (apply elem_of_cons in H as [H|H]; [discriminate H|]).
    apply elem_of_nil in H. exact H.
  - vm_compute. intros H. repeat (apply elem_of_cons in H as [H|H]; [discriminate H|]).
    apply elem_of_nil in H. exact H.
  - vm_compute. reflexivity.
Defined.

(** X16: the text the order-number rule returns begins with "86", and
    the rule applied to its own result changes nothing. *)
Theorem add_prefix_idempotent (x : ustr) :
  startswith (U "86") (add_prefix x) = true /\
  add_prefix (add_prefix x) = add_prefix x.
Proof.
  assert (H : startswith (U "86") (add_prefix x) = true).
  { unfold add_prefix. destruct (startswith (U "86") x) eqn:E; [exact E|reflexivity]. }
  split; [exact H|]. unfold add_prefix at 1. rewrite H. reflexivity.
Qed.

(** ** SequenceMatcher: the score lies between 0 and 1 *)

Section Bounds.
Variables a b : ustr.
Variable b2j : gmap N (list nat).

Lemma scan_row_inside_b (i blo bhi : nat) (j2len : gmap nat nat) :
  lens_b blo bhi j2len ->
  forall js newj2len best,
    lens_b blo bhi newj2len -> inside_b blo (Nat.max blo bhi) best ->
    lens_b blo bhi (scan_row i blo bhi j2len js newj2len best).1 /\
    inside_b blo (Nat.max blo bhi) (scan_row i blo bhi j2len js newj2len best).2.
Proof.
  intros Hprev js. induction js as [|j js IH]; intros newj2len best Hnew Hbest.
  - simpl. auto.
  - simpl. destruct (Nat.ltb_spec j blo) as [Hlo|Hlo]; [apply IH; auto|].
    destruct (Nat.leb_spec bhi j) as [Hhi|Hhi]; [simpl; auto|].
    assert (Hk : j2len_prev j2len j + 1 <= j + 1 - blo).
    { destruct j as [|j']; simpl; [lia|].
      destruct (j2len !! j') as [v|] eqn:E; simpl; [|lia].
      destruct (Hprev _ _ E) as (? & ? & ?). lia. }
    apply IH.
    + intros j' v. rewrite lookup_insert. case_decide.
      * intros [= <-]. subst j'. lia.
      * apply Hnew.
    + destruct (best.2 <? j2len_prev j2len j + 1); [|exact Hbest].
      unfold inside_b. simpl. lia.
Qed.

Lemma scan_rows_inside_b (alo ahi blo bhi : nat) :
  inside_b blo (Nat.max blo bhi) (scan_rows a b2j alo ahi blo bhi).
Proof.
  unfold scan_rows.
  assert (H : forall l,
    let st := foldl (fun (st : gmap nat nat * (nat * nat * nat)) (i : nat) =>
                let js := match a !! i with
                          | Some x => default [] (b2j !! x)
                          | None => []
                          end in
                scan_row i blo bhi st.1 js ∅ st.2)
              (∅, (alo, blo, 0)) l in
    lens_b blo bhi st.1 /\ inside_b blo (Nat.max blo bhi) st.2).
  { induction l as [|i l IH] using rev_ind.
    - simpl. split; [intros j v Hj; rewrite lookup_empty in Hj; discriminate|].
      unfold inside_b. simpl. lia.
    - rewrite foldl_app. simpl. destruct IH as [IH1 IH2].
      apply scan_row_inside_b; [exact IH1| |exact IH2].
      intros j v Hj. rewrite lookup_empty in Hj. discriminate. }
  destruct (H (seq alo (ahi - alo))) as [_ Hin]. exact Hin.
Qed.

Lemma extend_left_inside_b (junk : bool) (alo blo hi : nat) :
  forall besti bestj bestsize,
    inside_b blo hi (besti, bestj, bestsize) ->
    inside_b blo hi (extend_left a b junk alo blo besti bestj bestsize).
Proof.
  induction besti as [|i' IH]; intros bestj bestsize Hin; simpl; [exact Hin|].
  destruct bestj as [|j']; [exact Hin|].
  match goal with |- context [if ?c then _ else _] => destruct c eqn:E end;
    [|exact Hin].
  apply andb_true_iff in E as [E _]. apply andb_true_iff in E as [E _].
  apply andb_true_iff in E as [_ E]. apply Nat.ltb_lt in E.
  apply IH. unfold inside_b in *. simpl in *. lia.
Qed.

Lemma extend_right_le_b (junk : bool) (ahi bhi besti bestj hi : nat) :
  bhi <= hi ->
  forall gap bestsize,
    bestj + bestsize <= hi ->
    bestj + extend_right a b junk ahi bhi besti bestj bestsize gap <= hi.
Proof.
  intros Hhi. induction gap as [|gap IH]; intros bestsize Hin; simpl; [lia|].
  match goal with |- context [if ?c then _ else _] => destruct c eqn:E end; [|lia].
  apply andb_true_iff in E as [E _]. apply andb_true_iff in E as [E _].
  apply andb_true_iff in E as [_ E]. apply Nat.ltb_lt in E. apply IH. lia.
Qed.

Lemma grow_inside_b (junk : bool) (alo ahi blo bhi : nat) (m : nat * nat * nat) :
  inside_b blo (Nat.max blo bhi) m ->
  inside_b blo (Nat.max blo bhi) (grow a b junk alo ahi blo bhi m).
Proof.
  destruct m as [[besti bestj] bestsize]. intros Hin. unfold grow.
  pose proof (extend_left_inside_b junk alo blo _ besti bestj bestsize Hin) as Hl.
  destruct (extend_left a b junk alo blo besti bestj bestsize) as [[i1 j1] s1].
  unfold inside_b in *. simpl in *.
  pose proof (extend_right_le_b junk ahi bhi i1 j1 (Nat.max blo bhi) ltac:(lia)
                (ahi - (i1 + s1)) s1 ltac:(lia)).
  lia.
Qed.

Lemma find_longest_match_inside_b (alo ahi blo bhi : nat) :
  inside_b blo (Nat.max blo bhi) (find_longest_match a b b2j alo ahi blo bhi).
Proof.
  unfold find_longest_match.
  apply grow_inside_b, grow_inside_b, scan_rows_inside_b.
Qed.

Lemma sizes_snoc (l : list (nat * nat * nat)) (t : nat * nat * nat) :
  sizes (l ++ [t]) = sizes l + t.2.
Proof.
  unfold sizes. induction l as [|x l IH]; simpl; [lia|]. rewrite IH. lia.
Qed.

Lemma blocks_loop_nil (fuel : nat) (acc : list (nat * nat * nat)) :
  blocks_loop a b b2j fuel [] acc = Some acc.
Proof. destruct fuel; reflexivity. Qed.

Lemma blocks_loop_sizes (fuel : nat) :
  forall queue acc res,
    blocks_loop a b b2j fuel queue acc = Some res ->
    sizes res <= sizes acc
                 + sum_list (map (fun w : nat * nat * nat * nat => w.1.1.2 - w.1.1.1)
                                 queue) /\
    sizes res <= sizes acc
                 + sum_list (map (fun w : nat * nat * nat * nat => w.2 - w.1.2) queue).
Proof.
  induction fuel as [|fuel IH]; intros queue acc res;
    destruct queue as [|[[[alo ahi] blo] bhi] queue]; simpl;
    try (intros [= <-]; lia); try discriminate.
  pose proof (find_longest_match_inside a b b2j alo ahi blo bhi) as Hin.
  pose proof (find_longest_match_inside_b alo ahi blo bhi) as Hinb.
  destruct (find_longest_match a b b2j alo ahi blo bhi) as [[i j] k].
  unfold inside in Hin. unfold inside_b in Hinb. simpl in Hin, Hinb.
  destruct (Nat.eqb_spec k 0) as [->|Hk].
  - intros Hres. apply IH in Hres as [Ha Hb]. lia.
  - intros Hres. apply IH in Hres as [Ha Hb]. rewrite sizes_snoc in Ha, Hb.
    simpl in Ha, Hb.
    destruct ((alo <? i) && (blo <? j)); destruct ((i + k <? ahi) && (j + k <? bhi));
      simpl in Ha, Hb; lia.
Qed.
End Bounds.

Lemma matches_le (a b : ustr) : matches a b <= length a /\ matches a b <= length b.
Proof.
  pose proof (blocks_loop_sizes a b (chain_b b) _ _ _ _ (matching_blocks_total a b))
    as [Ha Hb].
  change (sizes (matching_blocks a b) <= 0 + (length a - 0 + 0)) in Ha.
  change (sizes (matching_blocks a b) <= 0 + (length b - 0 + 0)) in Hb.
  change (matches a b) with (sizes (matching_blocks a b)). lia.
Qed.

Lemma Zpos_of_nat (n : nat) : n <> 0 -> Z.pos (Pos.of_nat n) = Z.of_nat n.
Proof.
  intros Hn. rewrite <- positive_nat_Z, Nat2Pos.id by exact Hn. reflexivity.
Qed.

Lemma ratio_bounds (a b : ustr) : (0 <= ratio a b)%Q /\ (ratio a b <= 1)%Q.
Proof.
  unfold ratio. destruct (Nat.eqb_spec (length a + length b) 0) as [E|E].
  - split; lra.
  - destruct (matches_le a b) as [Ha Hb].
    unfold Qle. cbn [Qnum Qden]. rewrite (Zpos_of_nat _ E). lia.
Qed.

(** X17: no score exceeds 1, so with a threshold of 1 or more
    [match_items] returns the empty mapping, whatever the keys; even a
    key that is in the target list gets no entry. *)
Theorem match_items_threshold_one (src_list tgt_list : list ustr) (threshold : Q) :
  (1 <= threshold)%Q -> match_items src_list tgt_list threshold = [].
Proof.
  intros Hthr. assert (H0 : (0 <= threshold)%Q) by lra.
  destruct (match_items src_list tgt_list threshold) as [|[i j] m] eqn:Hm;
    [reflexivity|].
  exfalso. destruct (match_items_inv src_list tgt_list threshold) as [Hnd _].
  assert (Hj : dict_get i (match_items src_list tgt_list threshold) = Some j).
  { apply dict_get_elem; [exact Hnd|]. rewrite Hm. left. }
  destruct (match_items_entry _ _ _ _ _ H0 Hj) as (src & t & _ & _ & Hgt & _).
  destruct (ratio_bounds src t) as [_ Hle]. lra.
Qed.

Lemma match_items_threshold_one_witness :
  match_items [U "ABC"] [U "XYZ"; U "ABC"] 1 = [].
Proof. apply match_items_threshold_one. lra. Defined.

(** ** SequenceMatcher: a key against itself *)

Lemma chain_b_positions (b : ustr) :
  length b < 200 ->
  (forall i x, b !! i = Some x -> exists l, chain_b b !! x = Some l /\ i ∈ l) /\
  (forall x l j, chain_b b !! x = Some l -> j ∈ l -> j < length b).
Proof.
  intros Hlen. unfold chain_b. cbv zeta.
  destruct (Nat.leb_spec 200 (length b)) as [Hge|_]; [lia|]. clear Hlen.
  induction b as [|y b IH] using rev_ind.
  - split.
    + intros i x Hi. rewrite lookup_nil in Hi. discriminate.
    + intros x l j Hl.
      change (foldl _ ∅ (enumerate [])) with (∅ : gmap N (list nat)) in Hl.
      rewrite lookup_empty in Hl. discriminate.
  - rewrite enumerate_snoc, foldl_app. cbn [foldl fst snd].
    set (m := foldl _ ∅ (enumerate b)) in *. destruct IH as [IH1 IH2]. split.
    + intros i x Hi. destruct (decide (i < length b)) as [Hlt|Hge].
      * rewrite lookup_app_l in Hi by exact Hlt.
        destruct (IH1 i x Hi) as (l & Hl & Hin).
        destruct (decide (y = x)) as [->|Hne].
        -- eexists. rewrite lookup_insert_eq. split; [reflexivity|].
           rewrite Hl. simpl. apply elem_of_app. left. exact Hin.
        -- exists l. rewrite lookup_insert_ne by exact Hne. auto.
      * rewrite lookup_app_r in Hi by lia.
        destruct (i - length b) as [|k] eqn:E; simpl in Hi; [|discriminate].
        injection Hi as <-. eexists. rewrite lookup_insert_eq.
        split; [reflexivity|]. apply elem_of_app. right.
        apply list_elem_of_singleton. lia.
    + intros x l j Hl Hj. rewrite length_app. simpl.
      rewrite lookup_insert in Hl. case_decide.
      * injection Hl as <-. apply elem_of_app in Hj as [Hj|Hj].
        -- destruct (m !! y) as [l0|] eqn:E; simpl in Hj.
           ++ apply (IH2 _ _ _ E) in Hj. lia.
           ++ apply elem_of_nil in Hj. contradiction.
        -- apply list_elem_of_singleton in Hj. lia.
      * apply (IH2 _ _ _ Hl) in Hj. lia.
Qed.

Lemma scan_row_diag (i bhi : nat) (j2len : gmap nat nat) :
  j2len_prev j2len i = i ->
  forall js newj2len best,
    Forall (fun j => j < bhi) js ->
    best.2 <= (scan_row i 0 bhi j2len js newj2len best).2.2 /\
    (newj2len !! i = Some (i + 1) ->
     (scan_row i 0 bhi j2len js newj2len best).1 !! i = Some (i + 1)) /\
    (i ∈ js ->
     (scan_row i 0 bhi j2len js newj2len best).1 !! i = Some (i + 1) /\
     i + 1 <= (scan_row i 0 bhi j2len js newj2len best).2.2).
Proof.
  intros Hprev js. induction js as [|j js IH]; intros newj2len best Hjs.
  - simpl. split; [lia|]. split; [auto|].
    intros Hin. apply elem_of_nil in Hin. contradiction.
  - inversion Hjs as [|j0 js0 Hj Hjs']; subst.
    cbn [scan_row]. change (j <? 0) with false. cbv iota.
    destruct (Nat.leb_spec bhi j) as [Hge|_]; [lia|].
    set (k := j2len_prev j2len j + 1).
    set (best' := if best.2 <? k then (i + 1 - k, j + 1 - k, k) else best).
    destruct (IH (<[j := k]> newj2len) best' Hjs') as (IH1 & IH2 & IH3).
    assert (Hb : best.2 <= best'.2 /\ k <= best'.2).
    { subst best'. destruct (Nat.ltb_spec best.2 k); simpl; lia. }
    split; [lia|]. split.
    + intros Hnew. apply IH2. rewrite lookup_insert. case_decide; [|exact Hnew].
      subst j. unfold k. rewrite Hprev. reflexivity.
    + intros Hin. apply elem_of_cons in Hin as [->|Hin]; [|exact (IH3 Hin)].
      split.
      * apply IH2. rewrite lookup_insert_eq. unfold k. rewrite Hprev. reflexivity.
      * unfold k in Hb. rewrite Hprev in Hb. lia.
Qed.

Lemma scan_rows_diag (s : ustr) (b2j : gmap N (list nat)) :
  (forall i x, s !! i = Some x -> exists l, b2j !! x = Some l /\ i ∈ l) ->
  (forall x l j, b2j !! x = Some l -> j ∈ l -> j < length s) ->
  forall m, m <= length s ->
    let st := foldl (fun (st : gmap nat nat * (nat * nat * nat)) (i : nat) =>
                let js := match s !! i with
                          | Some x => default [] (b2j !! x)
                          | None => []
                          end in
                scan_row i 0 (length s) st.1 js ∅ st.2)
              (∅, (0, 0, 0)) (seq 0 m) in
    j2len_prev st.1 m = m /\ m <= st.2.2.
Proof.
  intros H1 H2. induction m as [|m IH]; intros Hm.
  - simpl. lia.
  - rewrite seq_S, foldl_app. cbn [foldl Nat.add]. cbv zeta.
    destruct (IH ltac:(lia)) as [I1 I2]. clear IH.
    set (st := foldl _ (∅, (0, 0, 0)) (seq 0 m)) in *.
    destruct (lookup_lt_is_Some_2 s m ltac:(lia)) as [x Hx]. rewrite Hx.
    destruct (H1 m x Hx) as (l & Hl & Hin). rewrite Hl. cbn [default from_option id].
    assert (Hall : Forall (fun j => j < length s) l).
    { apply Forall_forall. intros j Hj. exact (H2 _ _ _ Hl Hj). }
    destruct (scan_row_diag m (length s) st.1 I1 l ∅ st.2 Hall) as (_ & _ & D3).
    destruct (D3 Hin) as [D4 D5]. split; [|lia].
    cbn [j2len_prev]. rewrite D4. simpl. lia.
Qed.

Lemma find_longest_match_same (s : ustr) :
  length s < 200 ->
  find_longest_match s s (chain_b s) 0 (length s) 0 (length s) = (0, 0, length s).
Proof.
  intros Hlen. destruct (chain_b_positions s Hlen) as [H1 H2].
  pose proof (find_longest_match_inside s s (chain_b s) 0 (length s) 0 (length s)) as Ha.
  pose proof (find_longest_match_inside_b s s (chain_b s) 0 (length s) 0 (length s))
    as Hb.
  assert (Hsz : length s
                <= (find_longest_match s s (chain_b s) 0 (length s) 0 (length s)).2).
  { unfold find_longest_match.
    pose proof (scan_rows_inside s (chain_b s) 0 (length s) 0 (length s)) as Hs.
    pose proof (grow_inside s s false 0 (length s) 0 (length s) _ Hs) as [Hg1 Hg2].
    pose proof (grow_inside s s true 0 (length s) 0 (length s) _ Hg1) as [_ Hg3].
    assert (Hd : length s <= (scan_rows s (chain_b s) 0 (length s) 0 (length s)).2).
    { unfold scan_rows. rewrite Nat.sub_0_r.
      apply (scan_rows_diag s (chain_b s) H1 H2 (length s)). lia. }
    lia. }
  destruct (find_longest_match s s (chain_b s) 0 (length s) 0 (length s))
    as [[i j] k].
  unfold inside in Ha. unfold inside_b in Hb. simpl in Ha, Hb, Hsz.
  f_equal; [f_equal|]; lia.
Qed.

Lemma ratio_same (s : ustr) : length s < 200 -> (ratio s s == 1)%Q.
Proof.
  intros Hlen. destruct (decide (length s = 0)) as [E|E].
  - destruct s; [reflexivity|discriminate].
  - assert (Hm : matching_blocks s s = [(0, 0, length s)]).
    { unfold matching_blocks. cbn [blocks_loop].
      rewrite (find_longest_match_same s Hlen). cbv iota beta zeta.
      destruct (Nat.eqb_spec (length s) 0) as [?|_]; [contradiction|].
      change ((0 <? 0) && (0 <? 0)) with false. cbv iota.
      change (0 + length s) with (length s). rewrite Nat.ltb_irrefl.
      cbn [andb]. rewrite blocks_loop_nil. reflexivity. }
    unfold ratio, matches. rewrite Hm. cbn [foldr snd].
    destruct (Nat.eqb_spec (length s + length s) 0) as [?|E2]; [lia|].
    unfold Qeq. cbn [Qnum Qden]. rewrite (Zpos_of_nat _ E2). lia.
Qed.

(** X18: a key shorter than 200 characters scores 1 against itself, so
    for a threshold from 0 up to, but not including, 1 a source key that
    is in the target list always gets an entry; the entry points to the
    first target whose score against the key is 1. *)
Theorem identical_key_is_matched (src_list tgt_list : list ustr) (threshold : Q)
    (i : nat) (s : ustr) :
  (0 <= threshold)%Q -> (threshold < 1)%Q -> length s < 200 ->
  src_list !! i = Some s -> s ∈ tgt_list ->
  exists j t, dict_get i (match_items src_list tgt_list threshold) = Some j /\
    tgt_list !! j = Some t /\ (ratio s t == 1)%Q /\
    forall j' t', j' < j -> tgt_list !! j' = Some t' -> (ratio s t' < 1)%Q.
Proof.
  intros H0 H1 Hlen Hi Hin. apply list_elem_of_lookup in Hin as [j0 Hj0].
  pose proof (ratio_same s Hlen) as Hss.
  destruct (proj2 (match_items_has_entry src_list tgt_list threshold i s H0 Hi))
    as [j Hj].
  { exists j0, s. split; [exact Hj0|lra]. }
  destruct (match_items_entry _ _ _ _ _ H0 Hj)
    as (src & t & Hsrc & Ht & _ & Hmax & Hlt).
  rewrite Hi in Hsrc. injection Hsrc as <-.
  assert (Hr : (ratio s t == 1)%Q).
  { apply Qle_antisym; [apply ratio_bounds|]. specialize (Hmax _ _ Hj0). lra. }
  exists j, t. split; [exact Hj|]. split; [exact Ht|]. split; [exact Hr|].
  intros j' t' Hlt' Ht'. specialize (Hlt _ _ Hlt' Ht'). lra.
Qed.

Lemma identical_key_is_matched_witness :
  exists j t, dict_get 0 (match_items [U "ABC"] [U "XYZ"; U "ABC"] default_threshold)
              = Some j /\
    [U "XYZ"; U "ABC"] !! j = Some t /\ (ratio (U "ABC") t == 1)%Q /\
    forall j' t', j' < j -> [U "XYZ"; U "ABC"] !! j' = Some t' ->
                  (ratio (U "ABC") t' < 1)%Q.
Proof.
  apply identical_key_is_matched.
  - intros H; discriminate H.
  - reflexivity.
  - vm_compute. lia.
  - reflexivity.
  - right. left.
Defined.

(** ** format_postal on numbers *)

Lemma uint_text_digits (d : Decimal.uint) :
  Forall (fun c => (0x30 <= c <= 0x39)%N)
         (map N_of_ascii (list_ascii_of_string (NilEmpty.string_of_uint d))).
Proof.
  induction d; simpl; constructor; try exact IHd; lia.
Qed.

Lemma str_of_int_nonneg (z : Z) :
  (0 <= z)%Z ->
  exists c rest, str_of_int z = c :: rest /\
                 Forall (fun c => (0x30 <= c <= 0x39)%N) (c :: rest).
Proof.
  intros Hz. unfold str_of_int.
  assert (H : exists d, Z.to_int z = Decimal.Pos d).
  { destruct z as [|p|p]; [eexists; reflexivity|eexists; reflexivity|lia]. }
  destruct H as [d ->]. cbn [NilZero.string_of_int].
  pose proof (uint_text_digits d) as Hd.
  destruct d; cbn [NilZero.string_of_uint];
    try (simpl in *; eexists _, _; split; [reflexivity|exact Hd]).
  simpl. eexists _, _. split; [reflexivity|]. repeat constructor; lia.
Qed.

Lemma ascii_digit_is_digit (c : N) : (0x30 <= c <= 0x39)%N -> is_digit c = true.
Proof.
  intros Hc. unfold is_digit, is_decimal. apply orb_true_iff. left.
  apply in_ranges_Exists. unfold decimal_ranges. apply Exists_cons. left.
  simpl. lia.
Qed.

Lemma zfill_digits (c : N) (rest : ustr) :
  Forall (fun c => (0x30 <= c <= 0x39)%N) (c :: rest) ->
  zfill 7 (c :: rest) = replicate (7 - length (c :: rest)) 0x30%N ++ c :: rest /\
  isdigit (zfill 7 (c :: rest)) = true.
Proof.
  intros Hd.
  assert (Hz : zfill 7 (c :: rest)
               = replicate (7 - length (c :: rest)) 0x30%N ++ c :: rest).
  { unfold zfill. destruct (Nat.eqb_spec (7 - length (c :: rest)) 0) as [->|_];
      [reflexivity|].
    inversion Hd as [|c0 r0 Hc _]; subst.
    destruct (N.eqb_spec c 0x2B) as [->|_]; [lia|].
    destruct (N.eqb_spec c 0x2D) as [->|_]; [lia|]. reflexivity. }
  split; [exact Hz|]. rewrite Hz. unfold isdigit. apply andb_true_iff. split.
  - apply negb_true_iff, bool_decide_eq_false. intros E.
    apply app_eq_nil in E as [_ E]. discriminate E.
  - apply forallb_forall. intros x Hx. apply in_app_or in Hx as [Hx|Hx].
    + apply list_elem_of_In, elem_of_replicate in Hx as [-> _]. reflexivity.
    + apply ascii_digit_is_digit. rewrite Forall_forall in Hd.
      apply Hd, list_elem_of_In, Hx.
Qed.

Lemma format_postal_text_digits (c : N) (rest : ustr) :
  Forall (fun c => (0x30 <= c <= 0x39)%N) (c :: rest) ->
  (let digits := zfill 7 (c :: rest) in
   if isdigit digits && (length digits =? 7)
   then Ok (take 3 digits ++ [0x2D%N] ++ drop 3 digits)
   else Ok no_postal_code)
  = Ok (let d := replicate (7 - length (c :: rest)) 0x30%N ++ c :: rest in
        if length (c :: rest) <=? 7 then take 3 d ++ [0x2D%N] ++ drop 3 d
        else no_postal_code).
Proof.
  intros Hd. cbv zeta. destruct (zfill_digits c rest Hd) as [Hz Hdig].
  rewrite Hdig, Hz. cbn [andb].
  set (s := c :: rest).
  assert (Hl : length (replicate (7 - length s) 0x30%N ++ s)
               = Nat.max 7 (length s)).
  { rewrite length_app, length_replicate. lia. }
  rewrite Hl.
  destruct (Nat.leb_spec (length s) 7) as [Hle|Hgt];
    destruct (Nat.eqb_spec (Nat.max 7 (length s)) 7) as [He|Hne];
    try lia; reflexivity.
Qed.

(** X19: a number that is not negative.  An integer, or a float through
    its integer part, becomes its decimal text; with more digits than
    [str] converts, [str(int(postal))] raises [ValueError]; otherwise a
    text of at most seven digits is filled with zeros on the left to
    seven and split after the third, and a longer one gives the text for
    "no postal code". *)
Theorem format_postal_numbers (postal : pyval) (z : Z) :
  postal = PInt z \/ (exists f, postal = PFloat f /\ int_of_float f = Ok z) ->
  (0 <= z)%Z ->
  format_postal postal
  = (let s := str_of_int z in
     let d := replicate (7 - length s) 0x30%N ++ s in
     if max_str_digits <? length s then Raise ValueError
     else Ok (if length s <=? 7 then take 3 d ++ [0x2D%N] ++ drop 3 d
              else no_postal_code)).
Proof.
  intros Hv Hz.
  assert (Hstr : str_int z = if max_str_digits <? length (str_of_int z)
                             then Raise ValueError else Ok (str_of_int z)).
  { unfold str_int. rewrite Z.abs_eq by exact Hz. reflexivity. }
  assert (Hfp : format_postal postal
                = let* s0 := str_int z in
                  let digits := zfill 7 s0 in
                  if isdigit digits && (length digits =? 7)
                  then Ok (take 3 digits ++ [0x2D%N] ++ drop 3 digits)
                  else Ok no_postal_code).
  { destruct Hv as [->|(f & -> & Hf)]; unfold format_postal.
    - cbn [isna already_formatted]. destruct (str_int z); reflexivity.
    - assert (Hna : isna (PFloat f) = false).
      { destruct f; try reflexivity. discriminate Hf. }
      rewrite Hna. cbn [already_formatted]. rewrite Hf. cbn [bind].
      destruct (str_int z); reflexivity. }
  rewrite Hfp, Hstr. cbv zeta.
  destruct (max_str_digits <? length (str_of_int z)); cbn [bind]; [reflexivity|].
  destruct (str_of_int_nonneg z Hz) as (c & rest & Hs & Hd). rewrite Hs.
  pose proof (format_postal_text_digits c rest Hd) as Hfmt. cbv zeta in Hfmt.
  exact Hfmt.
Qed.

Lemma format_postal_numbers_witness :
  format_postal (PFloat (S754_finite false 1929 6)) = Ok (U "012-3456").
Proof.
  refine (eq_trans (format_postal_numbers (PFloat (S754_finite false 1929 6)) 123456
                      _ _) _).
  - right. eexists. split; reflexivity.
  - lia.
  - vm_compute. reflexivity.
Defined.

(** ** A name wrapped in 【 and 】 *)

Lemma set_tail_match (acc : bool -> ustr -> bool) (m : bool) (s : ustr) (n : nat) :
  rm [One (CLit 0x30BB); One (CLit 0x30C3); One (CLit 0x30C8)] acc m s = Some n ->
  n = 3 /\ exists rest, s = 0x30BB%N :: 0x30C3%N :: 0x30C8%N :: rest.
Proof.
  intros H. destruct s as [|x1 [|x2 [|x3 rest]]]; cbn [rm cmatch] in H.
  - discriminate.
  - destruct (x1 =? 0x30BB)%N; discriminate.
  - destruct (x1 =? 0x30BB)%N; [|discriminate].
    destruct (x2 =? 0x30C3)%N; discriminate.
  - destruct (N.eqb_spec x1 0x30BB) as [->|_]; [|discriminate].
    destruct (N.eqb_spec x2 0x30C3) as [->|_]; [|discriminate].
    destruct (N.eqb_spec x3 0x30C8) as [->|_]; [|discriminate].
    destruct (acc true rest); [|discriminate].
    injection H as <-. eauto.
Qed.

Lemma lazy_set_unfold (acc : bool -> ustr -> bool) (m : bool) (x : N) (s : ustr) :
  rm [LazyStar CDot; One (CLit 0x30BB); One (CLit 0x30C3); One (CLit 0x30C8)]
     acc m (x :: s)
  = match rm [One (CLit 0x30BB); One (CLit 0x30C3); One (CLit 0x30C8)] acc m (x :: s) with
    | Some n => Some n
    | None =>
        if negb (x =? 0xA)%N
        then S <$> rm [LazyStar CDot; One (CLit 0x30BB); One (CLit 0x30C3);
                       One (CLit 0x30C8)] acc true s
        else None
    end.
Proof. reflexivity. Qed.

Lemma lazy_set_short (acc : bool -> ustr -> bool) (c : N) :
  c <> 0x30C8%N ->
  forall t m n,
    rm [LazyStar CDot; One (CLit 0x30BB); One (CLit 0x30C3); One (CLit 0x30C8)]
       acc m (t ++ [c]) = Some n ->
    n <= length t.
Proof.
  intros Hc. induction t as [|x t IH]; intros m n H.
  - cbn [app] in H. rewrite lazy_set_unfold in H.
    destruct (rm _ acc m [c]) as [n0|] eqn:E.
    + apply set_tail_match in E as (_ & rest & Heq). discriminate Heq.
    + destruct (negb (c =? 0xA)%N); discriminate H.
  - cbn [app] in H. rewrite lazy_set_unfold in H.
    destruct (rm [One (CLit 0x30BB); One (CLit 0x30C3); One (CLit 0x30C8)]
                 acc m (x :: t ++ [c])) as [n0|] eqn:E.
    + injection H as <-. apply set_tail_match in E as (-> & rest & Heq).
      destruct t as [|y [|z t]]; cbn [app] in Heq.
      * discriminate Heq.
      * injection Heq as _ _ Heq. destruct (Hc Heq).
      * simpl. lia.
    + destruct (negb (x =? 0xA)%N); [|discriminate H].
      destruct (rm _ acc true (t ++ [c])) as [n'|] eqn:E'; [|discriminate H].
      injection H as <-. apply IH in E'. simpl. lia.
Qed.

Lemma set_match_short (ma : bool) (x c : N) (t : ustr) (n : nat) :
  c <> 0x30C8%N ->
  match_here (nth 0 patterns []) ma (x :: t ++ [c]) = Some n ->
  n <= S (length t).
Proof.
  intros Hc.
  change (match_here (nth 0 patterns []) ma (x :: t ++ [c]))
    with (if (x =? 0x23)%N
          then S <$> rm [LazyStar CDot; One (CLit 0x30BB); One (CLit 0x30C3);
                         One (CLit 0x30C8)]
                        (fun moved _ => moved || negb ma) true (t ++ [c])
          else None).
  destruct (x =? 0x23)%N; [|discriminate].
  destruct (rm _ _ true (t ++ [c])) as [n'|] eqn:E; [|discriminate].
  intros H. injection H as <-. apply (lazy_set_short _ c Hc) in E. lia.
Qed.

Lemma set_sub_last (c : N) :
  c <> 0x30C8%N -> c <> 0x23%N ->
  forall t k, k <= length t ->
    exists u, sub_loop (nth 0 patterns []) k (t ++ [c]) = u ++ [c] /\
              u `sublist_of` t.
Proof.
  intros Hc Hh. induction t as [|x t IH]; intros k Hk.
  - destruct k; [|simpl in Hk; lia]. exists []. split; [|constructor].
    cbn [app sub_loop].
    change (match_here (nth 0 patterns []) false [c])
      with (if (c =? 0x23)%N
            then S <$> (@None nat)
            else None).
    destruct (N.eqb_spec c 0x23) as [E|_]; [destruct (Hh E)|]. reflexivity.
  - cbn [app sub_loop]. destruct k as [|k].
    + assert (Hkeep : exists u, x :: sub_loop (nth 0 patterns []) 0 (t ++ [c]) = u ++ [c]
                                /\ u `sublist_of` x :: t).
      { destruct (IH 0 ltac:(lia)) as (u & -> & Hu). exists (x :: u).
        split; [reflexivity|apply sublist_skip, Hu]. }
      assert (Hdrop : forall n, S n <= S (length t) ->
                exists u, sub_loop (nth 0 patterns []) n (t ++ [c]) = u ++ [c]
                          /\ u `sublist_of` x :: t).
      { intros n Hn. destruct (IH n ltac:(lia)) as (u & -> & Hu). exists u.
        split; [reflexivity|apply sublist_cons, Hu]. }
      destruct (match_here (nth 0 patterns []) false (x :: t ++ [c])) as [[|n]|] eqn:E.
      * destruct (match_here (nth 0 patterns []) true (x :: t ++ [c])) as [[|n]|] eqn:E2;
          [exact Hkeep| |exact Hkeep].
        apply Hdrop. exact (set_match_short _ _ _ _ _ Hc E2).
      * apply Hdrop. exact (set_match_short _ _ _ _ _ Hc E).
      * exact Hkeep.
    + destruct (IH k ltac:(simpl in Hk; lia)) as (u & -> & Hu). exists u.
      split; [reflexivity|apply sublist_cons, Hu].
Qed.

Lemma lazy_until_unfold (k : N) (ma : bool) (x : N) (s : ustr) :
  rm [LazyStar CDot; One (CLit k)] (fun moved _ => moved || negb ma) true (x :: s)
  = if (x =? k)%N then Some 1
    else if negb (x =? 0xA)%N
         then S <$> rm [LazyStar CDot; One (CLit k)]
                       (fun moved _ => moved || negb ma) true s
         else None.
Proof.
  change (rm [LazyStar CDot; One (CLit k)] (fun moved _ => moved || negb ma) true
             (x :: s))
    with (match (if (x =? k)%N then Some 1 else None) with
          | Some n => Some n
          | None => if negb (x =? 0xA)%N
                    then S <$> rm [LazyStar CDot; One (CLit k)]
                                  (fun moved _ => moved || negb ma) true s
                    else None
          end).
  destruct (x =? k)%N; reflexivity.
Qed.

Lemma lazy_until_closes (k : N) (ma : bool) (mid post : ustr) :
  k ∉ mid -> 0xA%N ∉ mid ->
  rm [LazyStar CDot; One (CLit k)] (fun moved _ => moved || negb ma) true
     (mid ++ k :: post)
  = Some (S (length mid)).
Proof.
  induction mid as [|x mid IH]; intros Hc Hn.
  - cbn [app]. rewrite lazy_until_unfold, N.eqb_refl. reflexivity.
  - apply not_elem_of_cons in Hc as [Hx Hc]. apply not_elem_of_cons in Hn as [Hy Hn].
    cbn [app]. rewrite lazy_until_unfold.
    destruct (N.eqb_spec x k) as [E|_]; [destruct (Hx (eq_sym E))|].
    destruct (N.eqb_spec x 0xA) as [E|_]; [destruct (Hy (eq_sym E))|].
    cbn [negb]. rewrite (IH Hc Hn). reflexivity.
Qed.

(** X20: an item name that is wrapped in 【 and 】, with no 】 and no line
    break inside, has the empty key: [#.*?セット] cannot take the closing
    】, and [【.*?】] then removes the whole name.  This is how the order
    name of the end-to-end example loses its catalog row. *)
Theorem wrapped_name_has_empty_key (mid : ustr) :
  0x3011%N ∉ mid -> 0xA%N ∉ mid ->
  clean_text (PStr ([0x3010%N] ++ mid ++ [0x3011%N])) = [].
Proof.
  intros Hc Hn. cbn [clean_text]. unfold clean_str.
  change patterns with (nth 0 patterns [] :: nth 1 patterns [] :: skipn 2 patterns).
  cbn [fold_left].
  assert (H1 : exists u, re_sub (nth 0 patterns []) ([0x3010%N] ++ mid ++ [0x3011%N])
                         = 0x3010%N :: u ++ [0x3011%N] /\ u `sublist_of` mid).
  { destruct (set_sub_last 0x3011 ltac:(discriminate) ltac:(discriminate) mid 0
                ltac:(lia)) as (u & Hu & Hsub).
    exists u. split; [|exact Hsub]. unfold re_sub. cbn [app sub_loop].
    change (match_here (nth 0 patterns []) false (0x3010%N :: mid ++ [0x3011%N]))
      with (@None nat).
    rewrite Hu. reflexivity. }
  destruct H1 as (u & -> & Hsub).
  assert (H2 : re_sub (nth 1 patterns []) (0x3010%N :: u ++ [0x3011%N]) = []).
  { unfold re_sub. cbn [sub_loop].
    change (match_here (nth 1 patterns []) false (0x3010%N :: u ++ [0x3011%N]))
      with (S <$> rm [LazyStar CDot; One (CLit 0x3011)]
                     (fun moved _ => moved || negb false) true (u ++ [0x3011%N])).
    rewrite (lazy_until_closes 0x3011 false u []).
    - cbn [fmap option_fmap option_map]. rewrite sub_loop_skip.
      rewrite drop_ge by (rewrite length_app; simpl; lia). reflexivity.
    - intros Hin. apply Hc. exact (elem_of_sublist _ _ _ Hin Hsub).
    - intros Hin. apply Hn. exact (elem_of_sublist _ _ _ Hin Hsub). }
  rewrite H2. vm_compute. reflexivity.
Qed.

Lemma wrapped_name_has_empty_key_witness :
  clean_text (PStr order_item_name) = [].
Proof.
  refine (eq_trans _ (wrapped_name_has_empty_key
                        (U "Premium Red Lipstick #001セット") _ _)).
  - vm_compute. reflexivity.
  - vm_compute. intros H.
    repeat (apply elem_of_cons in H as [H|H]; [discriminate H|]).
    apply elem_of_nil in H. exact H.
  - vm_compute. intros H.
    repeat (apply elem_of_cons in H as [H|H]; [discriminate H|]).
    apply elem_of_nil in H. exact H.
Defined.

(** X21: a source key that is empty pairs only with an empty target key:
    against any other key its score is 0, which no threshold from 0 on
    lets pass. *)
Theorem empty_key_pairs_with_empty (src_list tgt_list : list ustr) (threshold : Q)
    (i j : nat) :
  (0 <= threshold)%Q ->
  src_list !! i = Some [] ->
  dict_get i (match_items src_list tgt_list threshold) = Some j ->
  tgt_list !! j = Some [].
Proof.
  intros H0 Hi Hj.
  destruct (match_items_entry _ _ _ _ _ H0 Hj) as (src & t & Hsrc & Ht & Hgt & _).
  rewrite Hi in Hsrc. injection Hsrc as <-. rewrite Ht. f_equal.
  destruct t as [|c t]; [reflexivity|]. exfalso.
  rewrite (ratio_empty (c :: t)) in Hgt.
  rewrite bool_decide_eq_false_2 in Hgt by discriminate. lra.
Qed.

Lemma empty_key_pairs_with_empty_witness :
  [U "x"; []; []] !! 1 = Some [].
Proof.
  apply (empty_key_pairs_with_empty [[]] [U "x"; []; []] default_threshold 0 1).
  - intros H; discriminate H.
  - reflexivity.
  - vm_compute. reflexivity.
Defined.
